(** * py3langid.train: corpus indexer, feature files, worker pool and
      Aho-Corasick scanner

    A shallow embedding of [py3langid/train/{common,index,scanner}.py].

    Reading conventions.  The sources are read as Python 3 (3.7 or later),
    function by function:
    - a [dict] iterates in insertion order;
    - [map(f, xs)] is a one-shot iterator: it yields each item once, calls
      [f] as the items are asked for, and is empty ever after;
    - [/] on integers is true division; a float that equals an integer is
      the same dictionary key as that integer;
    - iterating or indexing a [bytes] object gives integers, doing so on a
      [str] gives strings of length 1; [ord] accepts the latter only;
    - a name that the module-level imports cannot bind ([imap], which
      [itertools] does not have) raises [NameError] where a function
      evaluates it. *)

From stdpp Require Import gmap strings list fin_maps sorting.
From Stdlib Require Import ZArith NArith Lia.
From Stdlib Require QArith Qcanon.
From Stdlib Require Import Strings.Byte.

#[local] Set Warnings "-clear-no-such-hyp".

Local Open Scope string_scope.
Local Open Scope list_scope.

(** ** Exceptions and results *)

Inductive exn : Type :=
  | KeyError
  | TypeError
  | AttributeError
  | IndexError
  | OverflowError
  | IOError
  | SyntaxError
  | NameError
  | ValueError (msg : string).

(** [Ok v]: normal completion; [Raise e]: the exception escapes;
    [Timeout]: a [while] loop of the model ran out of fuel (shown not to
    happen). *)
Inductive result (A : Type) : Type :=
  | Ok (a : A)
  | Raise (e : exn)
  | Timeout.
Arguments Ok {A} a.
Arguments Raise {A} e.
Arguments Timeout {A}.

#[global] Instance result_bind : MBind result := λ A B k r,
  match r with
  | Ok a => k a
  | Raise e => Raise e
  | Timeout => Timeout
  end.
#[global] Instance result_ret : MRet result := λ A a, Ok a.

Definition of_option {A} (e : exn) (o : option A) : result A :=
  match o with Some a => Ok a | None => Raise e end.

Definition is_Ok {A} (r : result A) : Prop := ∃ a, r = Ok a.

(** ** Insertion-ordered dictionaries *)

Section dict.
Context {K V : Type} `{EqDecision K}.

Fixpoint dict_get (k : K) (d : list (K * V)) : option V :=
  match d with
  | [] => None
  | (k', v) :: d' => if decide (k = k') then Some v else dict_get k d'
  end.

(** [d[k] = v]: an existing key keeps its position. *)
Fixpoint dict_set (k : K) (v : V) (d : list (K * V)) : list (K * V) :=
  match d with
  | [] => [(k, v)]
  | (k', v') :: d' =>
      if decide (k = k') then (k, v) :: d' else (k', v') :: dict_set k v d'
  end.
End dict.

(** A set kept in first-insertion order; [set_add x s] is [s.add(x)]. *)
Definition set_add {A} `{EqDecision A} (x : A) (s : list A) : list A :=
  if decide (x ∈ s) then s else s ++ [x].

(** A loop whose body may raise. *)
Fixpoint foldM {A S} (f : S → A → result S) (s : S) (l : list A) : result S :=
  match l with
  | [] => Ok s
  | x :: l' => s' ← f s x; foldM f s' l'
  end.

(** ** Bytes and strings *)

#[global] Instance byte_eq_dec : EqDecision byte := Byte.byte_eq_dec.
#[global] Instance byte_countable : Countable byte :=
  inj_countable Byte.to_nat Byte.of_nat Byte.of_to_nat.

(** The value of a byte, and the byte of a value below 256. *)
Definition byte_value (b : byte) : nat := Byte.to_nat b.
Definition byte_of_value (n : nat) : byte := default x00 (Byte.of_nat n).

(** A [bytes] object and a [str] object (by code points). *)
Inductive pystring : Type :=
  | Bytes (l : list byte)
  | Str (l : list nat).

#[global] Instance pystring_eq_dec : EqDecision pystring.
Proof. solve_decision. Defined.

#[global] Instance pystring_countable : Countable pystring :=
  inj_countable'
    (λ s, match s with Bytes l => inl l | Str l => inr l end)
    (λ x, match x with inl l => Bytes l | inr l => Str l end)
    (λ s, match s with Bytes _ => eq_refl | Str _ => eq_refl end).

(** ** index.py *)

Module Index.

(** [defaultdict(Enumerator())], a [dict] and the set of pairs that the
    constructor builds from a pre-specified list. *)
Inductive index_map : Type :=
  | EnumDict (entries : list (string * nat)) (n : nat)
  | PlainDict (entries : list (string * nat))
  | PairSet (pairs : list (string * nat)).

Definition index_entries (m : index_map) : list (string * nat) :=
  match m with
  | EnumDict d _ => d
  | PlainDict d => d
  | PairSet s => s
  end.

(** [enumerate(seq)] with the components swapped: [(k, v) for v, k in
    enumerate(seq)]. *)
Definition enumerate_swapped (l : list string) : list (string * nat) :=
  imap (λ v k, (k, v)) l.

(** [m[k]] on a [defaultdict(Enumerator())]: a missing key is bound to the
    enumerator's counter, which is then incremented. *)
Definition enum_getitem (k : string) (d : list (string * nat)) (n : nat)
    : nat * (list (string * nat) * nat) :=
  match dict_get k d with
  | Some v => (v, (d, n))
  | None => (n, (d ++ [(k, n)], S n))
  end.

(** [m[k]]: a set is not subscriptable. *)
Definition index_getitem (k : string) (m : index_map)
    : result (nat * index_map) :=
  match m with
  | EnumDict d n =>
      let '(v, (d', n')) := enum_getitem k d n in Ok (v, EnumDict d' n')
  | PlainDict d =>
      match dict_get k d with
      | Some v => Ok (v, m)
      | None => Raise KeyError
      end
  | PairSet _ => Raise TypeError
  end.

(** [m.items()]. *)
Definition index_items (m : index_map) : result (list (string * nat)) :=
  match m with
  | EnumDict d _ => Ok d
  | PlainDict d => Ok d
  | PairSet _ => Raise AttributeError
  end.

Definition item : Type := nat * nat * string * string.

Record CorpusIndexer : Type := mkIndexer {
  min_domain : Z;
  lang_index : index_map;
  domain_index : index_map;
  coverage_index : list (string * list string);
  items : list item
}.

(** One [(dirpath, docname)] pair of [os.walk(root)], in walk order:
    [w_lang] and [w_domain] are the last two components of [dirpath],
    [w_path] is [os.path.join(dirpath, docname)] and [w_selected] is the
    outcome of [random.random() < self.proportion] for this file. *)
Record walked : Type := mkWalked {
  w_domain : string;
  w_lang : string;
  w_docname : string;
  w_path : string;
  w_selected : bool
}.

(** [self.coverage_index[domain].add(lang)]. *)
Definition coverage_add (domain lang : string)
    (cov : list (string * list string)) : list (string * list string) :=
  match dict_get domain cov with
  | Some s => dict_set domain (set_add lang s) cov
  | None => cov ++ [(domain, [lang])]
  end.

(** The body of the inner loop of [index]. *)
Definition index_doc (ix : CorpusIndexer) (f : walked) : result CorpusIndexer :=
  if w_selected f then
    match index_getitem (w_domain f) (domain_index ix) with
    | Raise KeyError => Ok ix
    | Raise e => Raise e
    | Timeout => Timeout
    | Ok (domain_id, di) =>
        match index_getitem (w_lang f) (lang_index ix) with
        | Raise KeyError =>
            Ok (mkIndexer (min_domain ix) (lang_index ix) di
                  (coverage_index ix) (items ix))
        | Raise e => Raise e
        | Timeout => Timeout
        | Ok (lang_id, li) =>
            Ok (mkIndexer (min_domain ix) li di
                  (coverage_add (w_domain f) (w_lang f) (coverage_index ix))
                  (items ix ++ [(domain_id, lang_id, w_docname f, w_path f)]))
        end
    end
  else Ok ix.

Fixpoint index (ix : CorpusIndexer) (root : list walked) : result CorpusIndexer :=
  match root with
  | [] => Ok ix
  | f :: root' => ix' ← index_doc ix f ; index ix' root'
  end.

(** [lang_domain_count[lang] += 1] on a [defaultdict(int)]. *)
Definition count_incr (lang : string) (c : list (string * nat))
    : list (string * nat) :=
  match dict_get lang c with
  | Some v => dict_set lang (S v) c
  | None => c ++ [(lang, 1)]
  end.

Definition lang_domain_count (cov : list (string * list string))
    : list (string * nat) :=
  foldl (λ c dl, foldl (λ c lang, count_incr lang c) c dl.2) [] cov.

Definition reject_langs (cov : list (string * list string)) (md : Z)
    : list string :=
  (filter (λ lc, (Z.of_nat lc.2 < md)%Z) (lang_domain_count cov)).*1.

(** [set(self.lang_index[l] for l in reject_langs)]. *)
Fixpoint reject_ids (ls : list string) (li : index_map) (acc : list nat)
    : result (list nat * index_map) :=
  match ls with
  | [] => Ok (acc, li)
  | l :: ls' =>
      '(v, li') ← index_getitem l li ;
      reject_ids ls' li' (set_add v acc)
  end.

(** The renumbering loop: [new_lang_index] is a fresh
    [defaultdict(Enumerator())], [lm] maps old ids to new ids. *)
Definition renumber (rej : list nat) (entries : list (string * nat))
    : (list (string * nat) * nat) * gmap nat nat :=
  foldl (λ '(d, n, lm) kv,
           if decide (kv.2 ∈ rej) then (d, n, lm)
           else let '(new_id, (d', n')) := enum_getitem kv.1 d n in
                (d', n', <[kv.2 := new_id]> lm))
        ([], 0, ∅) entries.

(** [(d, lm[l], n, p)] if [l in lm]. *)
Definition remap_item (lm : gmap nat nat) (it : item) : option item :=
  let '(d, l, n, p) := it in (λ l', (d, l', n, p)) <$> lm !! l.

Definition remap_items (lm : gmap nat nat) (its : list item) : list item :=
  omap (remap_item lm) its.

Definition prune_min_domain (ix : CorpusIndexer) (md : Z)
    : result CorpusIndexer :=
  match reject_langs (coverage_index ix) md with
  | [] => Ok ix
  | rl =>
      '(rej, li) ← reject_ids rl (lang_index ix) [] ;
      entries ← index_items li ;
      let '(d, n, lm) := renumber rej entries in
      Ok (mkIndexer (min_domain ix) (EnumDict d n) (domain_index ix)
            (coverage_index ix) (remap_items lm (items ix)))
  end.

(** [CorpusIndexer(root, min_domain, proportion, langs, domains)]. *)
Definition init (root : list walked) (md : Z)
    (langs domains : option (list string)) : result CorpusIndexer :=
  let li := match langs with
            | None => EnumDict [] 0
            | Some ls => PairSet (enumerate_swapped ls)
            end in
  let di := match domains with
            | None => EnumDict [] 0
            | Some ds =>
                PlainDict (foldl (λ d kv, dict_set kv.1 kv.2 d) []
                             (enumerate_swapped ds))
            end in
  ix ← index (mkIndexer md li di [] []) root ;
  prune_min_domain ix md.

(** The [classmaps] property, reduced to its guard: it is the only place
    of the class that raises on an empty item list. *)
Definition classmaps (ix : CorpusIndexer) : result nat :=
  let num_instances := length (items ix) in
  if decide (num_instances = 0) then Raise (ValueError "no items indexed!")
  else Ok num_instances.

(** [len(m)]. *)
Definition index_len (m : index_map) : nat := length (index_entries m).

(** [retval[i] += 1] on a vector: an index past the end raises
    [IndexError]. *)
Definition vec_incr (i : nat) (v : list Z) : result (list Z) :=
  match v !! i with
  | Some x => Ok (<[i := (x + 1)%Z]> v)
  | None => Raise IndexError
  end.

(** The [dist_lang] and [dist_domain] properties: a vector of zeros, one
    per entry of the index, incremented once per item. *)
Definition dist_lang (ix : CorpusIndexer) : result (list Z) :=
  foldM (λ retval '(d, l, n, p), vec_incr l retval)
        (replicate (index_len (lang_index ix)) 0%Z) (items ix).

Definition dist_domain (ix : CorpusIndexer) : result (list Z) :=
  foldM (λ retval '(d, l, n, p), vec_incr d retval)
        (replicate (index_len (domain_index ix)) 0%Z) (items ix).

(** The [paths] property. *)
Definition paths (ix : CorpusIndexer) : list string :=
  (λ '(d, l, n, p), p) <$> items ix.

(** *** Reference notions for the indexer *)

(** The distinct elements of a list in order of first occurrence. *)
Definition first_seen {A} `{EqDecision A} (l : list A) : list A :=
  foldl (λ s x, set_add x s) [] l.

(** A walked file is recorded when it is selected and its domain passes the
    pre-specified domain list, if there is one. *)
Definition admitted (domains : option (list string)) (f : walked) : bool :=
  w_selected f &&
  match domains with
  | None => true
  | Some ds => bool_decide (w_domain f ∈ ds)
  end.

Definition docs (domains : option (list string)) (root : list walked)
    : list walked :=
  filter (λ f, admitted domains f = true) root.

(** The distinct domains in which [lang] has a document. *)
Definition domains_of (lang : string) (ds : list walked) : list string :=
  first_seen (w_domain <$> filter (λ f, w_lang f = lang) ds).

Definition retained (md : Z) (ds : list walked) (lang : string) : Prop :=
  (md ≤ Z.of_nat (length (domains_of lang ds)))%Z.

#[global] Instance retained_dec md ds lang : Decision (retained md ds lang).
Proof. unfold retained. apply _. Defined.

(** The item recorded for a document under given index tables, if both of
    its labels are bound. *)
Definition item_of (di li : list (string * nat)) (f : walked) : option item :=
  d ← dict_get (w_domain f) di;
  l ← dict_get (w_lang f) li;
  Some (d, l, w_docname f, w_path f).

(** The tables that [index] builds, as functions of the recorded
    documents. *)
Definition lang_table (ds : list walked) : list (string * nat) :=
  enumerate_swapped (first_seen (w_lang <$> ds)).

Definition coverage_of (ds : list walked) : list (string * list string) :=
  foldl (λ cov f, coverage_add (w_domain f) (w_lang f) cov) [] ds.

Definition plain_dict (l : list string) : list (string * nat) :=
  foldl (λ d kv, dict_set kv.1 kv.2 d) [] (enumerate_swapped l).

Definition domain_table (domains : option (list string)) (ds : list walked)
    : index_map :=
  match domains with
  | None => let D := first_seen (w_domain <$> ds) in
            EnumDict (enumerate_swapped D) (length D)
  | Some dl => PlainDict (plain_dict dl)
  end.

(** *** Reference notions for the proofs *)

(** The language id and the domain id of an item. *)
Definition item_lang (it : item) : nat := it.1.1.2.
Definition item_domain (it : item) : nat := it.1.1.1.

(** The state of the indexer after [index] has recorded the documents
    [ds], when no language list is pre-specified. *)
Definition indexed (md : Z) (domains : option (list string))
    (ds : list walked) : CorpusIndexer :=
  mkIndexer md
    (EnumDict (lang_table ds) (length (first_seen (w_lang <$> ds))))
    (domain_table domains ds) (coverage_of ds)
    (omap (item_of (index_entries (domain_table domains ds)) (lang_table ds)) ds).

Record coverage_ok (ds : list walked) (cov : list (string * list string))
  : Prop := {
  cov_keys : NoDup cov.*1;
  cov_sets : ∀ d s, (d, s) ∈ cov →
    NoDup s ∧ ∀ l, l ∈ s ↔ ∃ f, f ∈ ds ∧ w_domain f = d ∧ w_lang f = l;
  cov_dom : ∀ f, f ∈ ds → w_domain f ∈ cov.*1
}.

Definition occ (l : string) (L : list string) : nat :=
  length (filter (λ x, x = l) L).

Definition counts (L : list string) : list (string * nat) :=
  foldl (λ c lang, count_incr lang c) [] L.

(** The indexer that the constructor returns when no language list is
    pre-specified. *)
Definition pruned (md : Z) (domains : option (list string))
    (ds : list walked) : CorpusIndexer :=
  let L' := filter (retained md ds) (first_seen (w_lang <$> ds)) in
  mkIndexer md (EnumDict (enumerate_swapped L') (length L'))
    (domain_table domains ds) (coverage_of ds)
    (omap (item_of (index_entries (domain_table domains ds))
             (enumerate_swapped L')) ds).

End Index.

Module IndexExamples.
Import Index.

Definition doc (d l n : string) : walked :=
  mkWalked d l n (d +:+ "/" +:+ l +:+ "/" +:+ n) true.

(** A corpus whose only language occurs in a single domain. *)
Definition corpus_one : list walked := [ doc "wiki" "en" "a" ].

(** Two files of domain [web], the first one in a language outside the
    pre-specified list [["en"]]. *)
Definition corpus_web : list walked :=
  [ doc "web" "fr" "x"; doc "web" "en" "y" ].

Definition corpus_s2 : list walked :=
  [ doc "wiki" "en" "a"; doc "wiki" "de" "b"; doc "news" "en" "c";
    doc "news" "fr" "d"; doc "wiki" "fr" "e" ].

End IndexExamples.

(** ** common.py *)

Module Common.

(** *** [chunk] *)

(** [tuple(islice(seq_iter, chunksize))]: the items taken and the state
    of the iterator afterwards; [islice] refuses a negative bound. *)
Definition islice_tuple {A} (seq_iter : list A) (chunksize : Z)
    : result (list A * list A) :=
  if decide (chunksize < 0)%Z
  then Raise (ValueError "Stop argument for islice() must be None or an integer: 0 <= x <= sys.maxsize.")
  else Ok (take (Z.to_nat chunksize) seq_iter,
           drop (Z.to_nat chunksize) seq_iter).

(** The [while True] loop of [chunk]: the chunks yielded.  The fuel is
    the number of iterations allowed. *)
Fixpoint chunk_loop {A} (fuel : nat) (seq_iter : list A) (chunksize : Z)
    : result (list (list A)) :=
  match fuel with
  | 0 => Timeout
  | S fuel' =>
      '(chunk, seq_iter) ← islice_tuple seq_iter chunksize;
      match chunk with
      | [] => Ok []
      | _ :: _ => chunks ← chunk_loop fuel' seq_iter chunksize;
                  Ok (chunk :: chunks)
      end
  end.

(** [chunk(seq, chunksize)] taken to its end, for [chunksize] an integer:
    one more iteration than [seq] has items is all the loop can do. *)
Definition chunk {A} (seq : list A) (chunksize : Z) : result (list (list A)) :=
  chunk_loop (S (length seq)) seq chunksize.

(** *** [repr] of a [bytes] object *)

Definition squote : byte := x27.
Definition dquote : byte := x22.
Definition backslash : byte := x5c.
Definition newline : byte := x0a.
Definition creturn : byte := x0d.

(** The quote [repr] delimits with: double quotes only when the string has
    a single quote and no double quote. *)
Definition quote_for (s : list byte) : byte :=
  if bool_decide (squote ∈ s) && negb (bool_decide (dquote ∈ s))
  then dquote else squote.

Definition hexdigit (n : nat) : byte :=
  nth n [x30; x31; x32; x33; x34; x35; x36; x37; x38; x39;
         x61; x62; x63; x64; x65; x66] x30.

Definition repr_byte (quote c : byte) : list byte :=
  if decide (c = quote ∨ c = backslash) then [backslash; c]
  else if decide (c = x09) then [backslash; x74]
  else if decide (c = x0a) then [backslash; x6e]
  else if decide (c = x0d) then [backslash; x72]
  else if decide (byte_value c < 32 ∨ 127 ≤ byte_value c)%nat
       then [backslash; x78; hexdigit (byte_value c / 16);
             hexdigit (byte_value c mod 16)]
  else [c].

(** [repr(feat)] for [feat] a [bytes] object: the prefix [b], then the
    quoted and escaped bytes.  The result is ASCII text. *)
Definition repr (s : list byte) : list byte :=
  let quote := quote_for s in
  x62 :: quote :: flat_map (repr_byte quote) s ++ [quote].

(** *** [eval] on a line that holds a string literal *)

Definition hexval (c : byte) : option nat :=
  let n := byte_value c in
  if decide (48 ≤ n ≤ 57)%nat then Some (n - 48)
  else if decide (97 ≤ n ≤ 102)%nat then Some (n - 87)
  else if decide (65 ≤ n ≤ 70)%nat then Some (n - 55)
  else None.

Definition push (c : byte) (r : option (list byte * list byte))
    : option (list byte * list byte) :=
  match r with
  | Some (w, rest) => Some (c :: w, rest)
  | None => None
  end.

(** The body of a string literal delimited by [quote]: the decoded
    characters and what follows the closing quote.  [None] stands for a
    syntax error (the line ends inside the literal, a malformed [\x]
    escape, a character that is not ASCII in a [bytes] literal) and for
    what is outside the fragment modelled: the octal escapes, and in a
    [str] literal the escapes [\u], [\U], [\N] and the characters that are
    not ASCII. *)
Fixpoint unescape (is_bytes : bool) (quote : byte) (s : list byte)
    : option (list byte * list byte) :=
  match s with
  | [] => None
  | c :: s' =>
      if decide (c = quote) then Some ([], s')
      else if decide (c = newline) then None
      else if decide (128 ≤ byte_value c)%nat then None
      else if decide (c = backslash) then
        match s' with
        | [] => None
        | e :: s'' =>
            if decide (e = x78) then
              match s'' with
              | h1 :: h2 :: s3 =>
                  match hexval h1, hexval h2 with
                  | Some a, Some b =>
                      push (byte_of_value (16 * a + b))
                           (unescape is_bytes quote s3)
                  | _, _ => None
                  end
              | _ => None
              end
            else if decide (e = newline) then unescape is_bytes quote s''
            else if decide (e = backslash)
                 then push backslash (unescape is_bytes quote s'')
            else if decide (e = squote)
                 then push squote (unescape is_bytes quote s'')
            else if decide (e = dquote)
                 then push dquote (unescape is_bytes quote s'')
            else if decide (e = x61) then push x07 (unescape is_bytes quote s'')
            else if decide (e = x62) then push x08 (unescape is_bytes quote s'')
            else if decide (e = x66) then push x0c (unescape is_bytes quote s'')
            else if decide (e = x6e) then push x0a (unescape is_bytes quote s'')
            else if decide (e = x72) then push x0d (unescape is_bytes quote s'')
            else if decide (e = x74) then push x09 (unescape is_bytes quote s'')
            else if decide (e = x76) then push x0b (unescape is_bytes quote s'')
            else if decide (48 ≤ byte_value e ≤ 55)%nat then None
            else if decide (128 ≤ byte_value e)%nat then None
            else if negb is_bytes
                    && bool_decide (e = x75 ∨ e = x55 ∨ e = x4e) then None
            else push backslash (push e (unescape is_bytes quote s''))
        end
      else push c (unescape is_bytes quote s')
  end.

(** [eval] on a line that holds one string literal in single or double
    quotes, with the prefix [b] or [B] for a [bytes] literal and without
    prefix for a [str] literal, followed by the end of the line.  The
    other prefixes, triple-quoted literals and every other expression are
    outside the fragment modelled and give [SyntaxError] here. *)
Definition eval_literal (line : list byte) : result pystring :=
  let '(is_bytes, line) :=
    match line with
    | c :: l => if decide (c = x62 ∨ c = x42) then (true, l) else (false, line)
    | [] => (false, line)
    end in
  match line with
  | quote :: body =>
      if decide (quote = squote ∨ quote = dquote) then
        if decide (take 2 body = [quote; quote]) then Raise SyntaxError
        else match unescape is_bytes quote body with
             | Some (w, rest) =>
                 if decide (rest = [] ∨ rest = [newline])
                 then Ok (if is_bytes then Bytes w
                          else Str (byte_value <$> w))
                 else Raise SyntaxError
             | None => Raise SyntaxError
             end
      else Raise SyntaxError
  | [] => Raise SyntaxError
  end.

(** *** Files *)

(** Iterating over a file opened as text: the lines, each with its
    newline; a carriage return, alone or before a line feed, ends a line
    and is read as a line feed. *)
Fixpoint lines_from (cur s : list byte) : list (list byte) :=
  match s with
  | [] => match cur with [] => [] | _ => [cur] end
  | c :: s' =>
      if decide (c = newline) then (cur ++ [newline]) :: lines_from [] s'
      else if decide (c = creturn) then
        match s' with
        | c' :: s'' =>
            if decide (c' = newline)
            then (cur ++ [newline]) :: lines_from [] s''
            else (cur ++ [newline]) :: lines_from [] s'
        | [] => [cur ++ [newline]]
        end
      else lines_from (cur ++ [c]) s'
  end.

Definition lines (s : list byte) : list (list byte) := lines_from [] s.

(** The files, by path; their content is ASCII text. *)
Abbreviation filesystem := (gmap string (list byte)).

(** An open or closed file object: the lines it has still to give. *)
Record file : Type := mkFile {
  f_lines : list (list byte);
  f_closed : bool
}.

(** The iterator [map(eval, f)]. *)
Record map_eval : Type := MapEval { me_file : file }.

(** [next(it)] on [it = map(eval, f)]: [None] is [StopIteration].  A closed
    file raises [ValueError] when a line is asked for. *)
Definition map_eval_next (it : map_eval)
    : result (option (pystring * map_eval)) :=
  if f_closed (me_file it)
  then Raise (ValueError "I/O operation on closed file.")
  else match f_lines (me_file it) with
       | [] => Ok None
       | line :: rest =>
           v ← eval_literal line;
           Ok (Some (v, MapEval (mkFile rest false)))
       end.

(** [list(it)], or any loop that takes the items of [it] to its end; the
    fuel is the number of [next] calls allowed. *)
Fixpoint map_eval_list (fuel : nat) (it : map_eval) : result (list pystring) :=
  match fuel with
  | 0 => Timeout
  | S fuel' =>
      r ← map_eval_next it;
      match r with
      | None => Ok []
      | Some (v, it') => vs ← map_eval_list fuel' it'; Ok (v :: vs)
      end
  end.

(** [write_features]: [print(repr(feat), file=f)] for each feature, a
    [bytes] object. *)
Definition write_features (features : list (list byte)) (path : string)
    (fs : filesystem) : filesystem :=
  <[path := flat_map (λ feat, repr feat ++ [newline]) features]> fs.

(** [f.close()]. *)
Definition close (f : file) : file := mkFile (f_lines f) true.

(** [read_features]: [with open(path) as f: return map(eval, f)].  The
    iterator is built without a line being read and holds the file object
    [f] itself; leaving the [with] block closes [f]. *)
Definition read_features (path : string) (fs : filesystem)
    : result map_eval :=
  content ← of_option IOError (fs !! path);
  let f := mkFile (lines content) false in
  Ok (MapEval (close f)).

(** *** [MapPool] *)

Section MapPool.
(** The callables and the argument values, left abstract. *)
Context {F A : Type}.

Inductive pool_event : Type :=
  | PoolCreated (processes : Z) (initializer : option F)
      (initargs : option (list A)) (maxtasksperchild : option Z)
  | InitializerCalled (initializer : F) (initargs : list A)
  | PoolClosed
  | PoolJoined.

(** What the context manager yields: the closure over
    [pool.imap_unordered]. *)
Inductive mapper : Type :=
  | PoolImapUnordered (processes chunksize : Z).

(** Entering the context: the events up to the [yield] and the value
    yielded, or the exception raised instead; [on_exit]: the events when
    the [with] block is left normally. *)
Record pool_context : Type := mkContext {
  on_enter : list pool_event;
  yielded : result mapper;
  on_exit : list pool_event
}.

(** [cpu_count] is the value of [mp.cpu_count()], at least 1.  In the
    [else] branch the call of [initializer] on the unpacked [initargs]
    raises [TypeError] when [initargs] is [None], and [f = imap] evaluates a name that Python 3
    cannot bind. *)
Definition MapPool (cpu_count : positive) (processes : option Z)
    (initializer : option F) (initargs : option (list A))
    (maxtasksperchild : option Z) (chunksize : Z) : pool_context :=
  let processes := match processes with
                   | None => (Z.pos cpu_count + 4)%Z
                   | Some p => p
                   end in
  if decide (processes > 1)%Z then
    mkContext [PoolCreated processes initializer initargs maxtasksperchild]
              (Ok (PoolImapUnordered processes chunksize))
              [PoolClosed; PoolJoined]
  else
    match initializer with
    | Some init =>
        match initargs with
        | Some args =>
            mkContext [InitializerCalled init args] (Raise NameError) []
        | None => mkContext [] (Raise TypeError) []
        end
    | None => mkContext [] (Raise NameError) []
    end.
End MapPool.

Arguments pool_event : clear implicits.
Arguments mapper : clear implicits.
Arguments pool_context : clear implicits.

End Common.

Module CommonExamples.
Import Common.

(** The bytes [a ' \ LF 0xff], which [repr] writes as [b"a'\\\n\xff"]. *)
Definition feat_mixed : list byte := [x61; x27; x5c; x0a; xff].
Definition feats : list (list byte) := [feat_mixed; []; [x22; x27]].

End CommonExamples.

(** ** scanner.py *)

Module Scanner.

(** *** Symbols *)

(** What indexing or iterating a string gives: an integer for [bytes], a
    string of length 1, known by its code point, for [str]. *)
Inductive sym : Type :=
  | SInt (n : byte)
  | SChr (c : nat).

#[global] Instance sym_eq_dec : EqDecision sym.
Proof. solve_decision. Defined.

#[global] Instance sym_countable : Countable sym :=
  inj_countable'
    (λ x, match x with SInt n => inl n | SChr c => inr c end)
    (λ x, match x with inl n => SInt n | inr c => SChr c end)
    (λ x, match x with SInt _ => eq_refl | SChr _ => eq_refl end).

(** [a[0], a[1], ...]. *)
Definition elems (a : pystring) : list sym :=
  match a with
  | Bytes l => SInt <$> l
  | Str l => SChr <$> l
  end.

(** [chr(i)], and [ord(x)]: [None] is the [TypeError] that [ord] raises on
    an integer. *)
Definition chr (i : nat) : sym := SChr i.

Definition ord (x : sym) : option nat :=
  match x with
  | SChr c => Some c
  | SInt _ => None
  end.

Abbreviation keyword := pystring.

(** Numbers as dictionary keys: an integer and a float that are equal are
    the same key, so a key is known by its value.  [true_div i 256] is the
    float [i / 256], which is exact for the [i] below 2^53. *)
Abbreviation number := Qcanon.Qc.

Definition int (n : nat) : number :=
  Qcanon.Q2Qc (QArith_base.inject_Z (Z.of_nat n)).

Definition true_div (i d : nat) : number :=
  Qcanon.Q2Qc (QArith_base.Qmake (Z.of_nat i) (Pos.of_nat d)).

(** *** The class attribute [alphabet] *)

(** [alphabet = map(chr, range(1<<8))] is evaluated once, in the class
    body: one iterator, shared by every [Scanner].  Its state is the list
    of the items that it has still to yield. *)
Definition iterator : Type := list sym.

(** The iterator as the class body leaves it. *)
Definition alphabet : iterator := chr <$> seq 0 (Nat.shiftl 1 8).

(** Code that uses [self.alphabet]: a function of the state of the
    iterator, which gives a result and the new state. *)
Definition M (A : Type) : Type := iterator → result A * iterator.

#[global] Instance M_ret : MRet M := λ A a σ, (Ok a, σ).

#[global] Instance M_bind : MBind M := λ A B k m σ,
  match m σ with
  | (Ok a, σ') => k a σ'
  | (Raise e, σ') => (Raise e, σ')
  | (Timeout, σ') => (Timeout, σ')
  end.

Definition lift {A} (r : result A) : M A := λ σ, (r, σ).

(** [for a in self.alphabet: body]: the loop takes the items left in the
    iterator one by one; it leaves the iterator empty, or, when the body
    raises, with the items after the one that made it raise. *)
Fixpoint for_items {S} (body : S → sym → result S) (s : S) (items : iterator)
    : result S * iterator :=
  match items with
  | [] => (Ok s, [])
  | a :: rest =>
      match body s a with
      | Ok s' => for_items body s' rest
      | Raise e => (Raise e, rest)
      | Timeout => (Timeout, rest)
      end
  end.

Definition for_alphabet {S} (body : S → sym → result S) (s : S) : M S :=
  for_items body s.

(** A loop over a list whose body uses [self.alphabet]. *)
Fixpoint forM {A S} (f : S → A → M S) (s : S) (l : list A) : M S :=
  match l with
  | [] => mret s
  | x :: l' => s' ← f s x; forM f s' l'
  end.

(** [try: m except OverflowError: handler]. *)
Definition try_except_OverflowError {A} (m handler : M A) : M A := λ σ,
  match m σ with
  | (Raise OverflowError, σ') => handler σ'
  | r => r
  end.

(** *** Algorithm 2: the goto trie *)

Record trie : Type := mkTrie {
  t_goto : gmap (nat * sym) nat;
  t_output : gmap nat (gset keyword);
  t_newstate : nat
}.

(** [while (j < len(a)) and (state, a[j]) in goto]: returns the state
    reached and [a[j:]]. *)
Fixpoint follow (goto : gmap (nat * sym) nat) (state : nat) (a : list sym)
    : nat * list sym :=
  match a with
  | [] => (state, [])
  | c :: a' =>
      match goto !! (state, c) with
      | Some s => follow goto s a'
      | None => (state, a)
      end
  end.

(** [for p in range(j, len(a))]: one new state per remaining symbol. *)
Fixpoint extend (goto : gmap (nat * sym) nat) (newstate state : nat)
    (a : list sym) : gmap (nat * sym) nat * nat * nat :=
  match a with
  | [] => (goto, newstate, state)
  | c :: a' =>
      let newstate := S newstate in
      extend (<[(state, c) := newstate]> goto) newstate newstate a'
  end.

(** [output[state].add(a)] on a [defaultdict(set)]. *)
Definition output_add (state : nat) (a : keyword)
    (output : gmap nat (gset keyword)) : gmap nat (gset keyword) :=
  <[state := (output !!! state) ∪ {[a]}]> output.

Definition enter (t : trie) (a : keyword) : trie :=
  let '(state, rest) := follow (t_goto t) 0 (elems a) in
  let '(goto, newstate, state) := extend (t_goto t) (t_newstate t) state rest in
  mkTrie goto (output_add state a (t_output t)) newstate.

Definition enter_all (keywords : list keyword) : trie :=
  foldl enter (mkTrie ∅ ∅ 0) keywords.

(** [for a in self.alphabet: if (0,a) not in goto: goto[(0,a)] = 0]. *)
Definition complete_root (goto : gmap (nat * sym) nat)
    : M (gmap (nat * sym) nat) :=
  for_alphabet (λ goto a, Ok (match goto !! (0, a) with
                              | None => <[(0, a) := 0]> goto
                              | Some _ => goto
                              end)) goto.

(** *** Algorithm 3: the failure function *)

Definition alg3_init (goto : gmap (nat * sym) nat)
    : M (list nat * gmap nat nat) :=
  for_alphabet (λ '(queue, fail) a,
                  s ← of_option KeyError (goto !! (0, a));
                  if decide (s ≠ 0) then Ok (queue ++ [s], <[s := 0]> fail)
                  else Ok (queue, fail))
               ([], ∅).

(** [while (state,a) not in goto: state = fail[state]]. *)
Fixpoint fail_walk (fuel : nat) (goto : gmap (nat * sym) nat)
    (fail : gmap nat nat) (state : nat) (a : sym) : result nat :=
  match goto !! (state, a) with
  | Some _ => Ok state
  | None =>
      match fuel with
      | 0 => Timeout
      | S fuel' =>
          state' ← of_option KeyError (fail !! state);
          fail_walk fuel' goto fail state' a
      end
  end.

(** Reading [output[k]] on the [defaultdict(set)] binds a missing [k] to
    the empty set. *)
Definition output_touch (k : nat) (output : gmap nat (gset keyword))
    : gmap nat (gset keyword) :=
  match output !! k with
  | Some _ => output
  | None => <[k := ∅]> output
  end.

Definition alg3_body (fuel : nat) (goto : gmap (nat * sym) nat) (r : nat)
    (st : list nat * gmap nat nat * gmap nat (gset keyword)) (a : sym)
    : result (list nat * gmap nat nat * gmap nat (gset keyword)) :=
  let '(queue, fail, output) := st in
  match goto !! (r, a) with
  | None => Ok st
  | Some s =>
      state ← of_option KeyError (fail !! r);
      state ← fail_walk fuel goto fail state a;
      fs ← of_option KeyError (goto !! (state, a));
      let fail := <[s := fs]> fail in
      let out_fs := output !!! fs in
      let output := output_touch fs output in
      let output :=
        if decide (out_fs ≠ ∅)
        then <[s := (output !!! s) ∪ out_fs]> output
        else output in
      Ok (queue ++ [s], fail, output)
  end.

Fixpoint alg3_loop (fuel wfuel : nat) (goto : gmap (nat * sym) nat)
    (st : list nat * gmap nat nat * gmap nat (gset keyword))
    : M (gmap nat nat * gmap nat (gset keyword)) :=
  match fuel with
  | 0 => lift Timeout
  | S fuel' =>
      match st with
      | ([], fail, output) => mret (fail, output)
      | (r :: queue, fail, output) =>
          st' ← for_alphabet (alg3_body wfuel goto r) (queue, fail, output);
          alg3_loop fuel' wfuel goto st'
      end
  end.

(** *** Algorithm 4: the next-move function *)

Definition alg4_init (goto : gmap (nat * sym) nat)
    : M (list nat * gmap (number * sym) nat) :=
  for_alphabet (λ '(queue, nextmove) a,
                  s ← of_option KeyError (goto !! (0, a));
                  let nextmove := <[(int 0, a) := s]> nextmove in
                  if decide (s ≠ 0) then Ok (queue ++ [s], nextmove)
                  else Ok (queue, nextmove))
               ([], ∅).

Definition alg4_body (goto : gmap (nat * sym) nat) (fail : gmap nat nat)
    (r : nat) (st : list nat * gmap (number * sym) nat) (a : sym)
    : result (list nat * gmap (number * sym) nat) :=
  let '(queue, nextmove) := st in
  match goto !! (r, a) with
  | Some s => Ok (queue ++ [s], <[(int r, a) := s]> nextmove)
  | None =>
      fr ← of_option KeyError (fail !! r);
      v ← of_option KeyError (nextmove !! (int fr, a));
      Ok (queue, <[(int r, a) := v]> nextmove)
  end.

Fixpoint alg4_loop (fuel : nat) (goto : gmap (nat * sym) nat)
    (fail : gmap nat nat) (st : list nat * gmap (number * sym) nat)
    : M (gmap (number * sym) nat) :=
  match fuel with
  | 0 => lift Timeout
  | S fuel' =>
      match st with
      | ([], nextmove) => mret nextmove
      | (r :: queue, nextmove) =>
          st' ← for_alphabet (alg4_body goto fail r) (queue, nextmove);
          alg4_loop fuel' goto fail st'
      end
  end.

(** *** The tables of [build] *)

Record tables : Type := mkTables {
  tb_goto : gmap (nat * sym) nat;
  tb_fail : gmap nat nat;
  tb_output : gmap nat (gset keyword);
  tb_nextmove : gmap (number * sym) nat;
  tb_newstate : nat
}.

(** Algorithms 2 to 4.  The two [while queue] loops and the inner [while]
    of Algorithm 3 get as fuel the number of states. *)
Definition build_tables (keywords : list keyword) : M tables :=
  let t := enter_all keywords in
  goto ← complete_root (t_goto t);
  let fuel := S (t_newstate t) in
  '(queue, fail) ← alg3_init goto;
  '(fail, output) ← alg3_loop fuel fuel goto (queue, fail, t_output t);
  '(queue, nextmove) ← alg4_init goto;
  nextmove ← alg4_loop fuel goto fail (queue, nextmove);
  mret (mkTables goto fail output nextmove (t_newstate t)).

(** *** The packed array *)

Inductive typecode : Type := H | L.

(** Item sizes of the [array] module: 2 bytes for ['H'], and for ['L'] the
    4 bytes that the module guarantees. *)
Definition typecode_bits (tc : typecode) : N :=
  match tc with H => 16 | L => 32 end%N.

Record array : Type := mkArray {
  a_typecode : typecode;
  a_cells : list nat
}.

(** [array.array(typecode, nextstate_iter())]: the generator is consumed
    cell by cell; a missing entry raises [KeyError], a value that does not
    fit the item size raises [OverflowError]. *)
Definition generate_nm_arr (nextmove : gmap (number * sym) nat)
    (newstate : nat) (tc : typecode) : M array :=
  cells ← forM (λ cells state,
             for_alphabet
               (λ cells letter,
                  v ← of_option KeyError (nextmove !! (int state, letter));
                  if decide (N.of_nat v < 2 ^ typecode_bits tc)%N
                  then Ok (cells ++ [v]) else Raise OverflowError)
               cells)
          [] (seq 0 (newstate + 1));
  mret (mkArray tc cells).

Record scanner : Type := mkScanner {
  nextmove : gmap (number * sym) nat;
  output : gmap nat (list keyword);
  nm_arr : array
}.

(** [build].  The order in which [tuple(output[k])] lists a set is not
    specified; the model takes that of [elements]. *)
Definition build (keywords : list keyword) : M scanner :=
  tb ← build_tables keywords;
  let output := elements <$> tb_output tb in
  nm_arr ← try_except_OverflowError
             (generate_nm_arr (tb_nextmove tb) (tb_newstate tb) H)
             (generate_nm_arr (tb_nextmove tb) (tb_newstate tb) L);
  mret (mkScanner (tb_nextmove tb) output nm_arr).

Definition getstate (sc : scanner) : array * gmap nat (list keyword) :=
  (nm_arr sc, output sc).

Definition setstate (value : array * gmap nat (list keyword)) : scanner :=
  let '(nm_array, output) := value in
  let nextmove :=
    foldl (λ nm ins, <[(true_div ins.1 256, chr (ins.1 mod 256)) := ins.2]> nm)
          ∅ (imap pair (a_cells nm_array)) in
  mkScanner nextmove output nm_array.

(** [search]: the keys yielded, in order, and the exception that ends the
    generator, if one does.  [map(ord, string)] applies [ord] as the loop
    asks for the letters; [IndexError] is what the array raises for an
    index past its end. *)
Fixpoint search_from (sc : scanner) (state : nat) (string : list sym)
    : list keyword * option exn :=
  match string with
  | [] => ([], None)
  | x :: string' =>
      match ord x with
      | None => ([], Some TypeError)
      | Some letter =>
          match a_cells (nm_arr sc) !! (Nat.shiftl state 8 + letter) with
          | None => ([], Some IndexError)
          | Some state =>
              let '(keys, e) := search_from sc state string' in
              (default [] (output sc !! state) ++ keys, e)
          end
      end
  end.

Definition search (sc : scanner) (string : pystring)
    : list keyword * option exn :=
  search_from sc 0 (elems string).

(** [Scanner(keywords).search(string)]. *)
Definition scan (keywords : list keyword) (string : pystring)
    : M (list keyword * option exn) :=
  sc ← build keywords; mret (search sc string).

(** *** Reference notions for the scanner *)

(** The labels of the states that [extend] creates below a state of label
    [w]: state [i] of the trie has the string [labels !! i]. *)
Fixpoint extend_labels (labels : list (list sym)) (w : list sym)
    (a : list sym) : list (list sym) :=
  match a with
  | [] => labels
  | c :: a' => extend_labels (labels ++ [w ++ [c]]) (w ++ [c]) a'
  end.

(** The edges [goto] form a trie on the states [0 .. n], state [i] standing
    for the string [lbl !! i]. *)
Record trie_shape (goto : gmap (nat * sym) nat) (n : nat)
    (lbl : list (list sym)) : Prop := {
  tr_root : lbl !! 0 = Some [];
  tr_len : length lbl = S n;
  tr_nodup : NoDup lbl;
  tr_goto : ∀ s c s', goto !! (s, c) = Some s' ↔
                      ∃ w, lbl !! s = Some w ∧ lbl !! s' = Some (w ++ [c]);
  tr_parent : ∀ s' w c, lbl !! s' = Some (w ++ [c]) →
                        ∃ s, lbl !! s = Some w ∧ (s < s')%nat
}.

(** The trie [t] holds exactly the prefixes of the keywords [K], and a
    state outputs the keywords equal to its string. *)
Record trie_ok (K : list keyword) (t : trie) (lbl : list (list sym))
    : Prop := {
  tr_shape : trie_shape (t_goto t) (t_newstate t) lbl;
  tr_keywords : ∀ w, w ∈ lbl ↔ w = [] ∨ ∃ k, k ∈ K ∧ w `prefix_of` elems k;
  tr_output : ∀ s k, k ∈ t_output t !!! s ↔ k ∈ K ∧ lbl !! s = Some (elems k)
}.

(** [K] without its duplicates, first occurrences kept. *)
Definition dedup_first (K : list keyword) : list keyword :=
  foldl (λ seen k, set_add k seen) [] K.

End Scanner.

Module ScannerExamples.
Import Scanner.

(** The keywords and the text of scenario S3, as [bytes] and as [str]. *)
Definition ab : keyword := Bytes [x61; x62].
Definition bc : keyword := Bytes [x62; x63].
Definition abc : keyword := Bytes [x61; x62; x63].
Definition ababc : pystring := Bytes [x61; x62; x61; x62; x63].
Definition s3_keywords : list keyword := [ab; bc; abc].

Definition ab_str : keyword := Str [97; 98].
Definition ababc_str : pystring := Str [97; 98; 97; 98; 99].

End ScannerExamples.

(** ** Insertion-ordered dictionaries: lemmas *)

Section dict_lemmas.
Context {K V : Type} `{EqDecision K}.
Implicit Types (d : list (K * V)) (k : K) (v : V).

Lemma dict_get_app k d1 d2 :
  dict_get k (d1 ++ d2) =
    match dict_get k d1 with Some v => Some v | None => dict_get k d2 end.
Proof.
  induction d1 as [|[k' v'] d1 IH]; simpl; [done|].
  case_decide; done.
Qed.

Lemma dict_get_Some_elem k v d : dict_get k d = Some v → (k, v) ∈ d.
Proof.
  induction d as [|[k' v'] d IH]; simpl; [done|].
  case_decide; intros; simplify_eq; [left | right; auto].
Qed.

Lemma dict_get_None k d : dict_get k d = None ↔ k ∉ d.*1.
Proof.
  induction d as [|[k' v'] d IH]; simpl.
  - split; [intros _; apply not_elem_of_nil | done].
  - case_decide; subst.
    + split; [done | intros []; left].
    + rewrite IH, not_elem_of_cons. tauto.
Qed.

Lemma dict_get_NoDup k v d : NoDup d.*1 → (k, v) ∈ d → dict_get k d = Some v.
Proof.
  induction d as [|[k' v'] d IH]; simpl; intros Hnd Hin.
  - by apply elem_of_nil in Hin.
  - apply NoDup_cons in Hnd as [Hk Hnd].
    apply elem_of_cons in Hin as [?|Hin]; simplify_eq.
    + by rewrite decide_True.
    + case_decide; subst; [|auto].
      destruct Hk. apply list_elem_of_fmap. by exists (k', v).
Qed.

Lemma dict_set_fst_In k v d :
  k ∈ d.*1 → (dict_set k v d).*1 = d.*1.
Proof.
  induction d as [|[k' v'] d IH]; simpl; intros Hin.
  - by apply elem_of_nil in Hin.
  - case_decide; subst; simpl; [done|].
    apply elem_of_cons in Hin as [?|?]; [done|]. f_equal. by apply IH.
Qed.

Lemma dict_get_set k k' v d :
  dict_get k' (dict_set k v d) = if decide (k' = k) then Some v else dict_get k' d.
Proof.
  induction d as [|[k0 v0] d IH]; simpl.
  - done.
  - destruct (decide (k = k0)); simpl; subst.
    + repeat case_decide; congruence.
    + rewrite IH. repeat case_decide; congruence.
Qed.
End dict_lemmas.

Section set_lemmas.
Context {A : Type} `{EqDecision A}.
Implicit Types (x y : A) (s l : list A).

Lemma elem_of_set_add x y s : y ∈ set_add x s ↔ y = x ∨ y ∈ s.
Proof.
  unfold set_add. case_decide.
  - naive_solver.
  - rewrite elem_of_app, list_elem_of_singleton. naive_solver.
Qed.

Lemma NoDup_set_add x s : NoDup s → NoDup (set_add x s).
Proof.
  unfold set_add. case_decide; [done|]. intros.
  apply NoDup_app. split_and!; [done | | apply NoDup_singleton].
  intros y ? ->%list_elem_of_singleton. done.
Qed.

Lemma first_seen_snoc l x :
  Index.first_seen (l ++ [x]) = set_add x (Index.first_seen l).
Proof. unfold Index.first_seen. by rewrite foldl_snoc. Qed.

Lemma first_seen_fmap_snoc {B} (g : B → A) (l : list B) (b : B) :
  Index.first_seen (g <$> l ++ [b]) = set_add (g b) (Index.first_seen (g <$> l)).
Proof. rewrite fmap_app. apply first_seen_snoc. Qed.

Lemma elem_of_first_seen x l : x ∈ Index.first_seen l ↔ x ∈ l.
Proof.
  induction l as [|y l IH] using rev_ind.
  - done.
  - rewrite first_seen_snoc, elem_of_set_add, elem_of_app,
      list_elem_of_singleton. naive_solver.
Qed.

Lemma NoDup_first_seen l : NoDup (Index.first_seen l).
Proof.
  induction l as [|y l IH] using rev_ind.
  - constructor.
  - rewrite first_seen_snoc. by apply NoDup_set_add.
Qed.
End set_lemmas.

Module IndexFacts.
Import Index.

Lemma enumerate_swapped_snoc l x :
  enumerate_swapped (l ++ [x]) = enumerate_swapped l ++ [(x, length l)].
Proof.
  unfold enumerate_swapped. rewrite imap_app. simpl.
  by rewrite Nat.add_0_r.
Qed.

Lemma enumerate_swapped_fst l : (enumerate_swapped l).*1 = l.
Proof.
  induction l as [|x l IH] using rev_ind; [done|].
  rewrite enumerate_swapped_snoc, fmap_app, IH. done.
Qed.

Lemma enumerate_swapped_length l : length (enumerate_swapped l) = length l.
Proof. unfold enumerate_swapped. by rewrite length_imap. Qed.

Lemma elem_of_enumerate_swapped l k i :
  (k, i) ∈ enumerate_swapped l ↔ l !! i = Some k.
Proof.
  induction l as [|x l IH] using rev_ind.
  - simpl. split; [by intros ?%elem_of_nil | done].
  - rewrite enumerate_swapped_snoc, elem_of_app, IH, list_elem_of_singleton.
    split.
    + intros [Hl | ?]; simplify_eq.
      * by apply lookup_app_l_Some.
      * by rewrite list_lookup_middle.
    + intros [?|[? Hx]]%lookup_app_Some; [by left | right].
      destruct (i - length l) as [|n] eqn:E; simpl in Hx; simplify_eq.
      f_equal. lia.
Qed.

Lemma dict_get_enumerate_swapped_Some l k i :
  dict_get k (enumerate_swapped l) = Some i → l !! i = Some k.
Proof. intros ?%dict_get_Some_elem. by apply elem_of_enumerate_swapped. Qed.

Lemma dict_get_enumerate_swapped_is_Some l k :
  is_Some (dict_get k (enumerate_swapped l)) ↔ k ∈ l.
Proof.
  rewrite <-not_eq_None_Some, dict_get_None, enumerate_swapped_fst.
  split; [apply dec_stable | auto].
Qed.

(** Looking a label up in an enumerating dictionary adds it to the
    first-seen list. *)
Lemma enum_getitem_table k l :
  NoDup l →
  ∃ v, enum_getitem k (enumerate_swapped l) (length l)
       = (v, (enumerate_swapped (set_add k l), length (set_add k l)))
     ∧ dict_get k (enumerate_swapped (set_add k l)) = Some v.
Proof.
  intros Hnd. unfold enum_getitem, set_add.
  destruct (dict_get k (enumerate_swapped l)) as [v|] eqn:E.
  - exists v. rewrite decide_True; [done|].
    apply dict_get_enumerate_swapped_is_Some. eauto.
  - exists (length l). rewrite decide_False.
    2:{ rewrite <-dict_get_enumerate_swapped_is_Some, E. by intros []. }
    rewrite enumerate_swapped_snoc, length_app. simpl. split.
    + repeat f_equal. lia.
    + rewrite dict_get_app, E. simpl. by rewrite decide_True.
Qed.

Lemma dict_get_enumerate_swapped_set_add k k' l v :
  dict_get k (enumerate_swapped l) = Some v →
  dict_get k (enumerate_swapped (set_add k' l)) = Some v.
Proof.
  intros E. unfold set_add. case_decide; [done|].
  by rewrite enumerate_swapped_snoc, dict_get_app, E.
Qed.

Lemma plain_dict_is_Some k l :
  is_Some (dict_get k (plain_dict l)) ↔ k ∈ l.
Proof.
  unfold plain_dict. rewrite <-(enumerate_swapped_fst l) at 2.
  generalize (enumerate_swapped l). intros d.
  assert (∀ d0, is_Some (dict_get k (foldl (λ d kv, dict_set kv.1 kv.2 d) d0 d))
               ↔ is_Some (dict_get k d0) ∨ k ∈ d.*1) as Hgen.
  { induction d as [|[k1 v1] d IH]; intros d0; simpl.
    - rewrite elem_of_nil. tauto.
    - rewrite IH, dict_get_set, elem_of_cons. case_decide; subst.
      + split; [intros _; right; by left | eauto].
      + tauto. }
  rewrite Hgen. simpl. split; [intros [[? [=]]|?]; done | auto].
Qed.

Lemma index_app ix r1 r2 :
  index ix (r1 ++ r2) = ix' ← index ix r1; index ix' r2.
Proof.
  revert ix. induction r1 as [|f r1 IH]; intros ix; simpl; [done|].
  destruct (index_doc ix f); simpl; auto.
Qed.

Lemma omap_cons' {A B} (g : A → option B) (x : A) (l : list A) :
  omap g (x :: l) = match g x with Some y => y :: omap g l | None => omap g l end.
Proof. done. Qed.

Lemma item_of_mono di li di' li' f it :
  (∀ k v, dict_get k di = Some v → dict_get k di' = Some v) →
  (∀ k v, dict_get k li = Some v → dict_get k li' = Some v) →
  item_of di li f = Some it → item_of di' li' f = Some it.
Proof.
  unfold item_of. intros Hd Hl H.
  destruct (dict_get (w_domain f) di) as [d|] eqn:Ed; simpl in H; [|done].
  destruct (dict_get (w_lang f) li) as [l|] eqn:El; simpl in H; [|done].
  by rewrite (Hd _ _ Ed), (Hl _ _ El).
Qed.

Lemma omap_item_of_mono di li di' li' (ds : list walked) :
  (∀ k v, dict_get k di = Some v → dict_get k di' = Some v) →
  (∀ k v, dict_get k li = Some v → dict_get k li' = Some v) →
  Forall (λ f, is_Some (item_of di li f)) ds →
  omap (item_of di' li') ds = omap (item_of di li) ds
  ∧ Forall (λ f, is_Some (item_of di' li' f)) ds.
Proof.
  intros Hd Hl. induction 1 as [|f ds [it Hf] _ [IH1 IH2]]; [done|].
  pose proof (item_of_mono _ _ _ _ _ _ Hd Hl Hf) as Hf'.
  split.
  - change (omap ?g (f :: ds)) with
      (match g f with Some y => y :: omap g ds | None => omap g ds end).
    by rewrite Hf, Hf', IH1.
  - constructor; [|done]. rewrite Hf'. eauto.
Qed.

Lemma docs_snoc domains r f :
  docs domains (r ++ [f]) =
    docs domains r ++ (if admitted domains f then [f] else []).
Proof.
  unfold docs. rewrite filter_app. f_equal.
  destruct (admitted domains f) eqn:E.
  - by rewrite filter_cons_True.
  - rewrite filter_cons_False; [done|]. by rewrite E.
Qed.

Lemma index_doc_spec md domains ds f :
  Forall (λ f, is_Some (item_of (index_entries (domain_table domains ds))
                          (lang_table ds) f)) ds →
  let ds' := ds ++ (if admitted domains f then [f] else []) in
  index_doc (indexed md domains ds) f = Ok (indexed md domains ds')
  ∧ Forall (λ f, is_Some (item_of (index_entries (domain_table domains ds'))
                            (lang_table ds') f)) ds'.
Proof.
  intros Hall ds'. subst ds'. unfold index_doc, admitted.
  destruct (w_selected f); simpl; [|by rewrite app_nil_r].
  assert (NoDup (first_seen (w_lang <$> ds))) as HndL by apply NoDup_first_seen.
  destruct (enum_getitem_table (w_lang f) _ HndL) as (lid & Hlget & Hlid).
  assert (lang_table (ds ++ [f]) =
          enumerate_swapped (set_add (w_lang f) (first_seen (w_lang <$> ds))))
    as HLT by (unfold lang_table; by rewrite first_seen_fmap_snoc).
  assert (∀ k v, dict_get k (lang_table ds) = Some v →
                 dict_get k (lang_table (ds ++ [f])) = Some v) as HLmono.
  { intros k v. rewrite HLT. apply dict_get_enumerate_swapped_set_add. }
  destruct domains as [dl|]; simpl.
  - (* pre-specified domains *)
    destruct (dict_get (w_domain f) (plain_dict dl)) as [did|] eqn:Ed.
    + rewrite bool_decide_eq_true_2
        by (apply plain_dict_is_Some; rewrite Ed; eauto).
      unfold lang_table at 1. rewrite Hlget.
      destruct (omap_item_of_mono (plain_dict dl) (lang_table ds)
                  (plain_dict dl) (lang_table (ds ++ [f])) ds) as [Ho Hf];
        [done | done | done |].
      split.
      * assert (omap (item_of (plain_dict dl) (lang_table (ds ++ [f]))) [f]
                = [(did, lid, w_docname f, w_path f)]) as Hnew.
        { simpl. unfold item_of. rewrite Ed. simpl. by rewrite HLT, Hlid. }
        unfold indexed. simpl.
        rewrite omap_app, Ho, Hnew, first_seen_fmap_snoc, HLT.
        unfold coverage_of at 2. by rewrite foldl_snoc.
      * apply Forall_app. split; [done|]. constructor; [|done].
        unfold item_of. rewrite Ed. simpl. rewrite HLT, Hlid. simpl. eauto.
    + rewrite bool_decide_eq_false_2.
      2:{ rewrite <-plain_dict_is_Some, Ed. by intros []. }
      by rewrite app_nil_r.
  - (* enumerated domains *)
    assert (NoDup (first_seen (w_domain <$> ds))) as HndD
      by apply NoDup_first_seen.
    destruct (enum_getitem_table (w_domain f) _ HndD) as (did & Hdget & Hdid).
    rewrite Hdget. unfold lang_table at 1. rewrite Hlget.
    assert (first_seen (w_domain <$> ds ++ [f])
            = set_add (w_domain f) (first_seen (w_domain <$> ds))) as HDT
      by (by rewrite first_seen_fmap_snoc).
    destruct (omap_item_of_mono
                (enumerate_swapped (first_seen (w_domain <$> ds)))
                (lang_table ds)
                (enumerate_swapped (first_seen (w_domain <$> ds ++ [f])))
                (lang_table (ds ++ [f])) ds) as [Ho Hf]; [| done | done |].
    { intros k v. rewrite HDT. apply dict_get_enumerate_swapped_set_add. }
    split.
    + assert (omap (item_of (enumerate_swapped
                               (first_seen (w_domain <$> ds ++ [f])))
                      (lang_table (ds ++ [f]))) [f]
              = [(did, lid, w_docname f, w_path f)]) as Hnew.
      { simpl. unfold item_of. rewrite HDT, Hdid. simpl. by rewrite HLT, Hlid. }
      unfold indexed. simpl.
      rewrite omap_app, Ho, Hnew, first_seen_fmap_snoc, HLT, HDT.
      unfold coverage_of at 2. by rewrite foldl_snoc.
    + apply Forall_app. split; [done|]. constructor; [|done].
      unfold item_of. rewrite HDT, Hdid. simpl. rewrite HLT, Hlid. simpl. eauto.
Qed.

Lemma index_spec md domains root :
  index (indexed md domains []) root = Ok (indexed md domains (docs domains root))
  ∧ Forall (λ f, is_Some (item_of
                (index_entries (domain_table domains (docs domains root)))
                (lang_table (docs domains root)) f)) (docs domains root).
Proof.
  induction root as [|f r [IH1 IH2]] using rev_ind; [done|].
  rewrite index_app, IH1, docs_snoc. simpl.
  destruct (index_doc_spec md domains (docs domains r) f IH2) as [-> ?].
  done.
Qed.

(** *** The coverage index *)

Lemma elem_of_dict_set {V} (k k' : string) (v v' : V) d :
  NoDup d.*1 → k ∈ d.*1 →
  (k', v') ∈ dict_set k v d ↔ (k' = k ∧ v' = v) ∨ (k' ≠ k ∧ (k', v') ∈ d).
Proof.
  induction d as [|[k0 v0] d IH]; simpl; intros Hnd Hin.
  - by apply elem_of_nil in Hin.
  - apply NoDup_cons in Hnd as [Hk0 Hnd].
    destruct (decide (k = k0)) as [->|Hne].
    + rewrite !elem_of_cons. split.
      * intros [?|Hd]; simplify_eq; [by left|]. right. split; [|by right].
        intros ->. apply Hk0. apply list_elem_of_fmap. by exists (k0, v').
      * intros [[-> ->]|[? [?|?]]]; simplify_eq; auto.
    + apply elem_of_cons in Hin as [?|Hin]; [done|].
      rewrite !elem_of_cons, (IH Hnd Hin). split.
      * intros [?|[?|[? ?]]]; simplify_eq; auto.
      * intros [?|[? [?|?]]]; simplify_eq; auto.
Qed.

Lemma coverage_add_ok ds cov f :
  coverage_ok ds cov →
  coverage_ok (ds ++ [f]) (coverage_add (w_domain f) (w_lang f) cov).
Proof.
  intros [Hk Hs Hd]. unfold coverage_add.
  destruct (dict_get (w_domain f) cov) as [s|] eqn:E.
  - assert (w_domain f ∈ cov.*1) as Hin.
    { apply dec_stable. rewrite <-dict_get_None, E. done. }
    pose proof (dict_get_Some_elem _ _ _ E) as Hfs.
    destruct (Hs _ _ Hfs) as [Hnds Hels].
    split.
    + by rewrite dict_set_fst_In.
    + intros d s'. rewrite elem_of_dict_set by done.
      intros [[-> ->]|[Hne Hds]].
      * split; [by apply NoDup_set_add|]. intros l.
        rewrite elem_of_set_add, Hels. setoid_rewrite elem_of_app.
        setoid_rewrite list_elem_of_singleton. naive_solver.
      * destruct (Hs _ _ Hds) as [? Hels']. split; [done|]. intros l.
        rewrite Hels'. setoid_rewrite elem_of_app.
        setoid_rewrite list_elem_of_singleton. naive_solver.
    + intros f'. rewrite dict_set_fst_In by done.
      rewrite elem_of_app, list_elem_of_singleton. intros [?| ->]; auto.
  - apply dict_get_None in E. split.
    + rewrite fmap_app. simpl. apply NoDup_app. split_and!; [done| |].
      * intros x ? ->%list_elem_of_singleton. done.
      * apply NoDup_singleton.
    + intros d s'. rewrite elem_of_app, list_elem_of_singleton.
      intros [Hds|?]; simplify_eq.
      * destruct (Hs _ _ Hds) as [? Hels']. split; [done|]. intros l.
        rewrite Hels'. setoid_rewrite elem_of_app.
        setoid_rewrite list_elem_of_singleton.
        split; [naive_solver|]. intros (f' & [?| ->] & ? & ?); [eauto|].
        subst. destruct E. apply list_elem_of_fmap. by exists (w_domain f, s').
      * split; [apply NoDup_singleton|]. intros l.
        rewrite list_elem_of_singleton. setoid_rewrite elem_of_app.
        setoid_rewrite list_elem_of_singleton.
        split; [naive_solver|]. intros (f' & [Hf'| ->] & ? & ?); [|done].
        destruct E. rewrite <-H. by apply Hd.
    + intros f'. rewrite fmap_app, !elem_of_app. simpl.
      rewrite !list_elem_of_singleton. intros [?| ->]; auto.
Qed.

Lemma coverage_of_ok ds : coverage_ok ds (coverage_of ds).
Proof.
  induction ds as [|f ds IH] using rev_ind.
  - split; simpl; [constructor | by intros ?? ?%elem_of_nil
                   | by intros ? ?%elem_of_nil].
  - unfold coverage_of. rewrite foldl_snoc. by apply coverage_add_ok.
Qed.

(** *** Counting the domains of a language *)

Lemma lang_domain_count_counts cov :
  lang_domain_count cov = counts (mjoin cov.*2).
Proof.
  unfold lang_domain_count, counts. generalize (@nil (string * nat)).
  induction cov as [|[d s] cov IH]; intros c; simpl; [done|].
  by rewrite IH, foldl_app.
Qed.

Lemma occ_snoc l L x :
  occ l (L ++ [x]) = occ l L + (if decide (x = l) then 1 else 0).
Proof.
  unfold occ. rewrite filter_app, length_app. f_equal.
  case_decide; [by rewrite filter_cons_True | by rewrite filter_cons_False].
Qed.

Lemma counts_spec L :
  NoDup (counts L).*1 ∧
  ∀ l, dict_get l (counts L) = if decide (occ l L = 0) then None
                               else Some (occ l L).
Proof.
  induction L as [|x L [IHnd IH]] using rev_ind.
  { split; [constructor|]. intros l. reflexivity. }
  unfold counts in *. rewrite foldl_snoc. unfold count_incr at 1 3.
  pose proof (IH x) as Hx.
  destruct (dict_get x _) as [v|] eqn:E.
  - assert (x ∈ (foldl (λ c lang, count_incr lang c) [] L).*1) as Hin.
    { apply dec_stable. rewrite <-dict_get_None, E. done. }
    split; [by rewrite dict_set_fst_In|]. intros l.
    rewrite dict_get_set, occ_snoc, IH.
    destruct (decide (l = x)) as [->|];
      [rewrite (decide_True (P := x = x)) by done
      |rewrite (decide_False (P := x = l)) by congruence].
    + case_decide; [done|]. simplify_eq.
      rewrite decide_False by lia. f_equal. lia.
    + rewrite Nat.add_0_r. done.
  - split.
    + rewrite fmap_app. apply NoDup_app. split_and!; [done| |apply NoDup_singleton].
      intros y ? ->%list_elem_of_singleton. by apply dict_get_None in E.
    + intros l. rewrite dict_get_app, IH, occ_snoc. simpl.
      destruct (decide (l = x)) as [->|];
        [rewrite (decide_True (P := x = x)) by done
        |rewrite (decide_False (P := x = l)) by congruence].
      * destruct (decide (occ x L = 0)) as [->|]; [|done].
        simpl. done.
      * rewrite Nat.add_0_r. destruct (decide (occ l L = 0)); done.
Qed.

Lemma occ_app l L1 L2 : occ l (L1 ++ L2) = occ l L1 + occ l L2.
Proof. unfold occ. by rewrite filter_app, length_app. Qed.

Lemma occ_NoDup l L : NoDup L → occ l L = if decide (l ∈ L) then 1 else 0.
Proof.
  induction 1 as [|x L Hx Hnd IH]; [done|].
  change (x :: L) with ([x] ++ L). rewrite occ_app, IH. unfold occ at 1.
  destruct (decide (x = l)) as [->|].
  - rewrite filter_cons_True by done. simpl.
    rewrite decide_False by done. rewrite decide_True by left. done.
  - rewrite filter_cons_False by done. simpl. case_decide.
    + rewrite decide_True by (by right). done.
    + rewrite decide_False; [done|]. rewrite not_elem_of_cons. naive_solver.
Qed.

Lemma occ_mjoin l (cov : list (string * list string)) :
  (∀ d s, (d, s) ∈ cov → NoDup s) →
  occ l (mjoin cov.*2) = length (filter (λ ds, l ∈ ds.2) cov).
Proof.
  induction cov as [|[d s] cov IH]; intros Hnd; [done|].
  change (mjoin ((d, s) :: cov).*2) with (s ++ mjoin cov.*2).
  rewrite occ_app, IH by (intros; eapply Hnd; by right).
  rewrite occ_NoDup by (eapply Hnd; left).
  case_decide; [by rewrite filter_cons_True | by rewrite filter_cons_False].
Qed.

Lemma coverage_domains_of l ds cov :
  coverage_ok ds cov →
  length (filter (λ ds, l ∈ ds.2) cov) = length (domains_of l ds).
Proof.
  intros [Hk Hs Hd].
  rewrite <-(length_fmap fst). apply Permutation_length, NoDup_Permutation.
  - assert (NoDup cov) as Hk' by (eapply NoDup_fmap_1; exact Hk).
    apply (NoDup_fmap_2_strong fst); [|by apply NoDup_filter].
    intros [d1 s1] [d2 s2] [_ H1]%list_elem_of_filter [_ H2]%list_elem_of_filter.
    simpl. intros ->. f_equal.
    pose proof (dict_get_NoDup _ _ _ Hk H1). pose proof (dict_get_NoDup _ _ _ Hk H2).
    congruence.
  - apply NoDup_first_seen.
  - intros d. unfold domains_of.
    rewrite elem_of_first_seen, !list_elem_of_fmap. split.
    + intros ([d' s] & -> & [Hl Hin]%list_elem_of_filter). simpl in *.
      destruct (Hs _ _ Hin) as [_ Hels]. apply Hels in Hl as (f & ? & ? & ?).
      exists f. by rewrite list_elem_of_filter.
    + intros (f & -> & [Hl Hf]%list_elem_of_filter).
      apply Hd in Hf as Hdom. apply list_elem_of_fmap in Hdom as ([d s] & Hd' & Hin).
      simpl in Hd'. exists (d, s). split; [done|].
      apply list_elem_of_filter. split; [|done]. simpl.
      destruct (Hs _ _ Hin) as [_ Hels]. apply Hels. eauto.
Qed.

(** The count that [prune_min_domain] computes for a language is the number
    of distinct domains in which the language has a document. *)
Lemma lang_domain_count_spec ds l :
  dict_get l (lang_domain_count (coverage_of ds)) =
    if decide (length (domains_of l ds) = 0) then None
    else Some (length (domains_of l ds)).
Proof.
  pose proof (coverage_of_ok ds) as Hok.
  rewrite lang_domain_count_counts.
  destruct (counts_spec (mjoin (coverage_of ds).*2)) as [_ ->].
  rewrite occ_mjoin by (intros d s Hin; by destruct (cov_sets _ _ Hok _ _ Hin)).
  by rewrite (coverage_domains_of _ _ _ Hok).
Qed.

Lemma domains_of_pos l ds :
  length (domains_of l ds) ≠ 0 ↔ l ∈ w_lang <$> ds.
Proof.
  unfold domains_of. rewrite list_elem_of_fmap. split.
  - destruct (first_seen _) as [|d ?] eqn:E; [done|]. intros _.
    assert (d ∈ first_seen (w_domain <$> filter (λ f, w_lang f = l) ds)) as Hd
      by (rewrite E; left).
    apply elem_of_first_seen, list_elem_of_fmap in Hd
      as (f & -> & [? ?]%list_elem_of_filter). eauto.
  - intros (f & -> & Hf).
    assert (w_domain f ∈ first_seen
              (w_domain <$> filter (λ f', w_lang f' = w_lang f) ds)) as Hd.
    { apply elem_of_first_seen, list_elem_of_fmap. exists f. split; [done|].
      by apply list_elem_of_filter. }
    destruct (first_seen _); [by apply elem_of_nil in Hd | done].
Qed.

Lemma elem_of_reject_langs ds md l :
  l ∈ reject_langs (coverage_of ds) md ↔
    l ∈ first_seen (w_lang <$> ds) ∧ ¬ retained md ds l.
Proof.
  unfold reject_langs, retained.
  rewrite list_elem_of_fmap, elem_of_first_seen, <-domains_of_pos.
  pose proof (lang_domain_count_spec ds l) as Hc.
  destruct (counts_spec (mjoin (coverage_of ds).*2)) as [Hnd _].
  rewrite <-lang_domain_count_counts in Hnd.
  split.
  - intros ([l' c] & -> & [Hlt Hin]%list_elem_of_filter). simpl in *.
    rewrite (dict_get_NoDup _ _ _ Hnd Hin) in Hc.
    case_decide; simplify_eq. split; [done|lia].
  - intros [Hne Hlt]. rewrite decide_False in Hc by done.
    exists (l, length (domains_of l ds)). split; [done|].
    apply list_elem_of_filter. simpl. split; [lia|].
    by apply dict_get_Some_elem.
Qed.

(** *** Renumbering *)

Lemma reject_ids_spec rl L acc :
  Forall (λ l, l ∈ L) rl →
  ∃ rej, reject_ids rl (EnumDict (enumerate_swapped L) (length L)) acc
         = Ok (rej, EnumDict (enumerate_swapped L) (length L))
       ∧ ∀ v, v ∈ rej ↔
              v ∈ acc ∨ ∃ l, l ∈ rl ∧ dict_get l (enumerate_swapped L) = Some v.
Proof.
  intros Hrl. revert acc. induction Hrl as [|l rl Hl _ IH]; intros acc; simpl.
  - exists acc. split; [done|]. intros v. split; [auto|].
    intros [?|(l & ?%elem_of_nil & _)]; done.
  - apply dict_get_enumerate_swapped_is_Some in Hl as [v Hv].
    unfold enum_getitem. rewrite Hv. simpl.
    destruct (IH (set_add v acc)) as (rej & -> & Hrej).
    exists rej. split; [done|]. intros v'.
    rewrite Hrej, elem_of_set_add. setoid_rewrite elem_of_cons. split.
    + intros [[->|?]|(l' & ? & ?)]; eauto.
    + intros [?|(l' & [->|?] & ?)]; simplify_eq; eauto.
Qed.

Lemma renumber_spec rej L (keep : string → Prop) `{!∀ l, Decision (keep l)} :
  NoDup L →
  (∀ l i, L !! i = Some l → (i ∈ rej ↔ ¬ keep l)) →
  ∃ lm, renumber rej (enumerate_swapped L)
        = (enumerate_swapped (filter keep L), length (filter keep L), lm)
      ∧ ∀ v, lm !! v =
             l ← L !! v;
             if decide (keep l)
             then dict_get l (enumerate_swapped (filter keep L)) else None.
Proof.
  induction L as [|x L IH] using rev_ind; intros Hnd Hrej.
  - exists ∅. split; [done|]. intros v. by rewrite lookup_empty.
  - apply NoDup_app in Hnd as (HndL & Hx & _).
    destruct IH as (lm & Hren & Hlm); [done| |].
    { intros l i Hi. apply Hrej. by apply lookup_app_l_Some. }
    assert (x ∉ L) as HxL.
    { intros ?. eapply Hx; [done|]. by apply list_elem_of_singleton. }
    unfold renumber in *. rewrite enumerate_swapped_snoc, foldl_snoc, Hren.
    simpl. rewrite filter_app.
    specialize (Hrej x (length L) (list_lookup_middle _ _ _ _ eq_refl)).
    destruct (decide (keep x)) as [Hkx|Hkx].
    + rewrite decide_False by tauto.
      rewrite filter_cons_True by done. rewrite filter_nil.
      assert (NoDup (filter keep L)) as HndF by by apply NoDup_filter.
      assert (x ∉ filter keep L) as HxF
        by (rewrite list_elem_of_filter; tauto).
      destruct (enum_getitem_table x _ HndF) as (v & Hget & Hv).
      unfold set_add in Hget, Hv. rewrite decide_False in Hget, Hv by done.
      rewrite Hget.
      assert (v = length (filter keep L)) as ->.
      { rewrite enumerate_swapped_snoc, dict_get_app in Hv.
        destruct (dict_get x (enumerate_swapped (filter keep L))) eqn:E.
        - destruct HxF. apply dict_get_enumerate_swapped_is_Some. eauto.
        - simpl in Hv. rewrite decide_True in Hv by done. congruence. }
      eexists. split; [done|]. intros v.
      destruct (decide (v = length L)) as [->|Hne].
      * rewrite lookup_insert_eq, list_lookup_middle by done. simpl.
        by rewrite decide_True.
      * rewrite lookup_insert_ne, Hlm by done.
        destruct (L !! v) as [l|] eqn:El.
        -- rewrite (lookup_app_l_Some _ _ _ _ El). simpl.
           case_decide as Hk; [|done].
           rewrite enumerate_swapped_snoc, dict_get_app.
           destruct (dict_get l (enumerate_swapped (filter keep L))) eqn:E;
             [done|].
           apply dict_get_None in E. rewrite enumerate_swapped_fst in E.
           destruct E. apply list_elem_of_filter. split; [done|].
           by eapply list_elem_of_lookup_2.
        -- apply lookup_ge_None in El.
           rewrite lookup_ge_None_2; [done|]. rewrite length_app. simpl. lia.
    + rewrite decide_True by tauto.
      rewrite filter_cons_False by done. rewrite filter_nil, app_nil_r.
      exists lm. split; [done|]. intros v. rewrite Hlm.
      destruct (decide (v = length L)) as [->|Hne].
      * rewrite list_lookup_middle by done. rewrite lookup_ge_None_2 by done.
        simpl. by rewrite decide_False.
      * destruct (L !! v) as [l|] eqn:El.
        -- by rewrite (lookup_app_l_Some _ _ _ _ El).
        -- apply lookup_ge_None in El.
           rewrite lookup_ge_None_2; [done|]. rewrite length_app. simpl. lia.
Qed.

Lemma remap_items_spec di L (keep : string → Prop) `{!∀ l, Decision (keep l)}
    lm (ds : list walked) :
  (∀ v, lm !! v =
        l ← L !! v;
        if decide (keep l)
        then dict_get l (enumerate_swapped (filter keep L)) else None) →
  Forall (λ f, is_Some (item_of di (enumerate_swapped L) f)) ds →
  remap_items lm (omap (item_of di (enumerate_swapped L)) ds)
  = omap (item_of di (enumerate_swapped (filter keep L))) ds.
Proof.
  intros Hlm. unfold remap_items.
  induction 1 as [|f ds [it Hf] _ IH]; [done|].
  assert (remap_item lm it
          = item_of di (enumerate_swapped (filter keep L)) f) as Hkey.
  { unfold item_of, remap_item in Hf |- *.
    destruct (dict_get (w_domain f) di) as [d|]; simpl in Hf |- *; [|done].
    destruct (dict_get (w_lang f) (enumerate_swapped L)) as [l|] eqn:El;
      simpl in Hf; [|done].
    simplify_eq.
    rewrite Hlm, (dict_get_enumerate_swapped_Some _ _ _ El). simpl.
    case_decide as Hk.
    - destruct (dict_get (w_lang f) (enumerate_swapped (filter keep L)))
        as [l'|] eqn:El'; [done|].
      apply dict_get_None in El'. rewrite enumerate_swapped_fst in El'.
      destruct El'. apply list_elem_of_filter. split; [done|].
      apply dict_get_enumerate_swapped_is_Some. eauto.
    - destruct (dict_get (w_lang f) (enumerate_swapped (filter keep L)))
        as [l'|] eqn:El'; [|done].
      apply dict_get_enumerate_swapped_Some, list_elem_of_lookup_2,
        list_elem_of_filter in El' as [? _]. done. }
  rewrite (omap_cons' (item_of di (enumerate_swapped L)) f), Hf.
  rewrite (omap_cons' _ it), IH, Hkey.
  by rewrite (omap_cons' _ f).
Qed.

(** *** The constructor *)

Lemma filter_all {A} (P : A → Prop) `{!∀ x, Decision (P x)} (l : list A) :
  Forall P l → filter P l = l.
Proof.
  induction 1 as [|x l Hx _ IH]; [done|].
  by rewrite filter_cons_True, IH.
Qed.

Lemma prune_min_domain_cases ix md :
  prune_min_domain ix md =
    if decide (reject_langs (coverage_index ix) md = []) then Ok ix
    else '(rej, li) ← reject_ids (reject_langs (coverage_index ix) md)
                        (lang_index ix) [];
         entries ← index_items li;
         let '(d, n, lm) := renumber rej entries in
         Ok (mkIndexer (min_domain ix) (EnumDict d n) (domain_index ix)
               (coverage_index ix) (remap_items lm (items ix))).
Proof.
  unfold prune_min_domain.
  destruct (reject_langs (coverage_index ix) md); done.
Qed.

Lemma init_None_spec root md domains :
  init root md None domains = Ok (pruned md domains (docs domains root)).
Proof.
  unfold init.
  change (mkIndexer md (EnumDict [] 0) _ [] []) with (indexed md domains []).
  destruct (index_spec md domains root) as [-> Hall].
  set (ds := docs domains root) in *. simpl.
  set (L := first_seen (w_lang <$> ds)).
  assert (NoDup L) as HndL by apply NoDup_first_seen.
  rewrite prune_min_domain_cases. simpl.
  destruct (decide (reject_langs (coverage_of ds) md = [])) as [E|_].
  - (* nothing to reject *)
    unfold pruned, indexed. fold L.
    rewrite filter_all; [done|].
    apply Forall_forall. intros l Hl. apply dec_stable. intros Hnr.
    assert (l ∈ reject_langs (coverage_of ds) md) as Hin
      by (by apply elem_of_reject_langs).
    rewrite E in Hin. by apply elem_of_nil in Hin.
  - destruct (reject_ids_spec (reject_langs (coverage_of ds) md) L [])
      as (rej & Hrej & Hrej_in).
    { apply Forall_forall. intros l [? _]%elem_of_reject_langs. done. }
    unfold lang_table. fold L. rewrite Hrej. simpl.
    destruct (renumber_spec rej L (retained md ds) HndL) as (lm & Hren & Hlm).
    { intros l i Hi. rewrite Hrej_in. split.
      - intros [?%elem_of_nil|(l' & Hl' & Hget)]; [done|].
        apply dict_get_enumerate_swapped_Some in Hget. simplify_eq.
        by apply elem_of_reject_langs in Hl' as [_ ?].
      - intros Hnr. right. exists l. split.
        + apply elem_of_reject_langs. split; [|done].
          by eapply list_elem_of_lookup_2.
        + apply dict_get_NoDup.
          * by rewrite enumerate_swapped_fst.
          * by apply elem_of_enumerate_swapped. }
    rewrite Hren. unfold pruned. fold L. simpl.
    by rewrite (remap_items_spec _ L (retained md ds) lm ds Hlm Hall).
Qed.

Lemma domains_of_docs_le l domains root :
  (length (domains_of l (docs domains root)) ≤ length (domains_of l root))%nat.
Proof.
  apply submseteq_length, NoDup_submseteq; [apply NoDup_first_seen|].
  intros d. unfold domains_of, docs.
  rewrite !elem_of_first_seen, !list_elem_of_fmap.
  intros (f & -> & [? [? ?]%list_elem_of_filter]%list_elem_of_filter).
  exists f. by rewrite list_elem_of_filter.
Qed.

Lemma omap_None {A B} (g : A → option B) (l : list A) :
  Forall (λ x, g x = None) l → omap g l = [].
Proof.
  induction 1 as [|x l Hx _ IH]; [done|]. by rewrite omap_cons', Hx.
Qed.

(** A file that is not recorded leaves the indexer as it is, whatever the
    language table. *)
Lemma index_not_admitted md li domains ds0 cov its root :
  docs domains root = [] →
  index (mkIndexer md li (domain_table domains ds0) cov its) root
  = Ok (mkIndexer md li (domain_table domains ds0) cov its).
Proof.
  induction root as [|f root IH]; [done|]. unfold docs in *.
  intros Hd. destruct (decide (admitted domains f = true)) as [Hf|Hf].
  { by rewrite filter_cons_True in Hd. }
  rewrite filter_cons_False in Hd by done.
  simpl. unfold index_doc at 1. unfold admitted in Hf.
  destruct (w_selected f); simpl in *; [|by apply IH].
  destruct domains as [dl|]; [|done]. simpl.
  destruct (dict_get (w_domain f) (plain_dict dl)) eqn:E.
  - destruct Hf. apply bool_decide_eq_true_2, plain_dict_is_Some. eauto.
  - simpl. by apply IH.
Qed.

(** With a pre-specified language list the first recorded file makes the
    constructor raise [TypeError]. *)
Lemma index_PairSet_TypeError md ps domains ds0 cov its root :
  docs domains root ≠ [] →
  index (mkIndexer md (PairSet ps) (domain_table domains ds0) cov its) root
  = Raise TypeError.
Proof.
  induction root as [|f root IH]; [done|].
  unfold docs in *. intros Hd. simpl.
  destruct (decide (admitted domains f = true)) as [Hf|Hf].
  - clear IH Hd. unfold index_doc, admitted in *.
    destruct (w_selected f); [|done]. simpl in Hf.
    destruct domains as [dl|]; simpl in *.
    + apply bool_decide_eq_true_1, plain_dict_is_Some in Hf as [v ->]. done.
    + by destruct (enum_getitem _ _ _) as [? [? ?]].
  - rewrite filter_cons_False in Hd by done.
    unfold index_doc, admitted in *.
    destruct (w_selected f); simpl in *; [|by apply IH].
    destruct domains as [dl|]; [|done]. simpl.
    destruct (dict_get (w_domain f) (plain_dict dl)) eqn:E.
    + destruct Hf. apply bool_decide_eq_true_2, plain_dict_is_Some. eauto.
    + simpl. by apply IH.
Qed.

Lemma init_langs_TypeError root md ls domains :
  docs domains root ≠ [] →
  init root md (Some ls) domains = Raise TypeError.
Proof.
  unfold init. intros Hd.
  change (match domains with None => EnumDict [] 0 | Some ds0 => _ end)
    with (domain_table domains []).
  by rewrite index_PairSet_TypeError.
Qed.

End IndexFacts.

Module IndexClaims.
Import Index IndexFacts IndexExamples.

(** C4 (as amended).  For every corpus indexed without a pre-specified
    language list, every sampling outcome, every domain list and every
    [min_domain], the constructor returns an indexer [ix] such that, with
    [ds] the recorded documents:
    - every language bound in [lang_index] has documents in at least
      [min_domain] distinct domains, among the recorded documents and hence
      in the corpus;
    - [lang_index] binds exactly the retained languages, in order of first
      occurrence, to 0, 1, 2, ...;
    - [items] lists, in order, the documents of retained languages with
      their domain id and their new language id; the documents of rejected
      languages are gone. *)
Theorem prune_min_domain_spec (root : list walked) (md : Z)
    (domains : option (list string)) :
  let ds := docs domains root in
  ∃ ix, init root md None domains = Ok ix
    ∧ (∀ l id, (l, id) ∈ index_entries (lang_index ix) →
         (md ≤ Z.of_nat (length (domains_of l ds)))%Z
         ∧ (md ≤ Z.of_nat (length (domains_of l root)))%Z)
    ∧ index_entries (lang_index ix)
      = enumerate_swapped
          (filter (retained md ds) (first_seen (w_lang <$> ds)))
    ∧ items ix
      = omap (item_of (index_entries (domain_index ix))
                (index_entries (lang_index ix))) ds
    ∧ (∀ f, f ∈ ds →
         is_Some (item_of (index_entries (domain_index ix))
                    (index_entries (lang_index ix)) f)
         ↔ retained md ds (w_lang f)).
Proof.
  intros ds. exists (pruned md domains ds).
  split; [apply init_None_spec|]. unfold pruned. simpl.
  set (L' := filter (retained md ds) (first_seen (w_lang <$> ds))).
  split_and!; [|done|done|].
  - intros l id Hin.
    assert (retained md ds l) as Hr.
    { apply elem_of_enumerate_swapped, list_elem_of_lookup_2 in Hin.
      by apply list_elem_of_filter in Hin as [? _]. }
    split; [done|]. unfold retained in Hr.
    pose proof (domains_of_docs_le l domains root). subst ds. lia.
  - intros f Hf.
    destruct (index_spec md domains root) as [_ Hall].
    rewrite Forall_forall in Hall. destruct (Hall f Hf) as [it Hit].
    unfold item_of in Hit |- *. fold ds in Hit.
    destruct (dict_get (w_domain f) _) as [d|]; simpl in *; [|done].
    trans (is_Some (dict_get (w_lang f) (enumerate_swapped L'))).
    { destruct (dict_get (w_lang f) (enumerate_swapped L')); simpl;
        [by split; eauto | by split; intros []]. }
    rewrite dict_get_enumerate_swapped_is_Some. unfold L'.
    rewrite list_elem_of_filter, elem_of_first_seen.
    split; [tauto|]. intros ?. split; [done|].
    apply list_elem_of_fmap. eauto.
Qed.

(** C4 as stated fails when a language list is pre-specified: a listed
    language without any document stays in [lang_index] whatever
    [min_domain] is. *)
Lemma prune_min_domain_keeps_listed_language :
  ∃ ix, init [] 1 (Some ["en"]) None = Ok ix
    ∧ ("en", 0) ∈ index_entries (lang_index ix)
    ∧ ¬ (1 ≤ Z.of_nat (length (domains_of "en" [])))%Z.
Proof.
  eexists. split; [reflexivity|]. split; [left|]. simpl. lia.
Qed.

(** C5 (as amended).  When no document remains - nothing was recorded, or
    no language list is pre-specified and every recorded document is in a
    language that [min_domain] rejects - the constructor returns normally,
    with an empty item list; it is the [classmaps] property that raises
    [ValueError] on such an indexer. *)
Theorem init_empty_corpus (root : list walked) (md : Z)
    (langs domains : option (list string)) :
  let ds := docs domains root in
  ds = [] ∨ (langs = None ∧ ∀ f, f ∈ ds → ¬ retained md ds (w_lang f)) →
  ∃ ix, init root md langs domains = Ok ix
    ∧ items ix = []
    ∧ classmaps ix = Raise (ValueError "no items indexed!").
Proof.
  intros ds [Hds|[-> Hrej]].
  - unfold init.
    change (match domains with None => EnumDict [] 0 | Some ds0 => _ end)
      with (domain_table domains []).
    rewrite (index_not_admitted _ _ _ _ _ _ _ Hds). simpl.
    eexists. split; [reflexivity|]. done.
  - exists (pruned md domains ds). split; [apply init_None_spec|].
    assert (items (pruned md domains ds) = []) as Hit.
    { unfold pruned. simpl. apply omap_None, Forall_forall. intros f Hf.
      unfold item_of.
      destruct (dict_get (w_domain f) _) as [d|]; simpl; [|done].
      destruct (dict_get (w_lang f) _) as [l|] eqn:E; simpl; [|done].
      apply dict_get_enumerate_swapped_Some, list_elem_of_lookup_2,
        list_elem_of_filter in E as [? _].
      by destruct (Hrej f Hf). }
    split; [done|]. unfold classmaps. by rewrite Hit.
Qed.

Lemma init_empty_corpus_witness :
  (let ds := docs None corpus_one in
   ds = [] ∨ (@None (list string) = None
              ∧ ∀ f, f ∈ ds → ¬ retained 2 ds (w_lang f)))
  ∧ ∃ ix, init corpus_one 2 None None = Ok ix
      ∧ items ix = []
      ∧ classmaps ix = Raise (ValueError "no items indexed!").
Proof.
  assert (let ds := docs None corpus_one in
          ds = [] ∨ (@None (list string) = None
                     ∧ ∀ f, f ∈ ds → ¬ retained 2 ds (w_lang f))) as H.
  { right. split; [reflexivity|].
    intros f Hf. apply list_elem_of_singleton in Hf. subst f.
    unfold retained. vm_compute. intros H. apply H. reflexivity. }
  split; [exact H|]. exact (init_empty_corpus corpus_one 2 None None H).
Defined.

(** C5 as stated fails: the constructor returns an indexer with an empty
    item list for an empty corpus. *)
Lemma init_empty_corpus_returns :
  ∃ ix, init [] 1 None None = Ok ix ∧ items ix = [].
Proof. eexists. split; reflexivity. Qed.

(** C6 at its failing input: with the language list [["en"]] the first
    recorded file, whose language [fr] is outside the list, makes the
    constructor raise [TypeError] instead of being skipped; the file [y]
    after it is never reached.  The sibling path does what the claim says:
    with the domain list [["news"]] both files are skipped and the
    constructor returns, no id having been assigned. *)
Theorem init_language_list_raises :
  init corpus_web 1 (Some ["en"]) None = Raise TypeError
  ∧ init corpus_web 1 None (Some ["news"])
    = Ok (mkIndexer 1 (EnumDict [] 0) (PlainDict [("news", 0)]) [] []).
Proof. split; reflexivity. Qed.

End IndexClaims.

Module IndexMore.
Import Index IndexFacts IndexExamples.

(** *** Frequency vectors *)

Lemma vec_incr_fold (ids : list nat) (v : list Z) :
  Forall (λ i, i < length v) ids →
  ∃ v', foldM (λ retval i, vec_incr i retval) v ids = Ok v'
      ∧ length v' = length v
      ∧ ∀ i, v' !! i
             = (λ x, x + Z.of_nat (length (filter (λ j, j = i) ids)))%Z
                 <$> v !! i.
Proof.
  revert v. induction ids as [|j ids IH]; intros v Hall.
  - exists v. split; [done|]. split; [done|]. intros i.
    destruct (v !! i); simpl; [f_equal; lia|done].
  - apply Forall_cons in Hall as [Hj Hall].
    destruct (lookup_lt_is_Some_2 v j Hj) as [x Hx].
    destruct (IH (<[j := (x + 1)%Z]> v)) as (v' & Hrun & Hlen & Hv').
    { by rewrite length_insert. }
    exists v'. split.
    { change (foldM ?f v (j :: ids)) with (s' ← vec_incr j v; foldM f s' ids).
      assert (vec_incr j v = Ok (<[j := (x + 1)%Z]> v)) as ->
        by (unfold vec_incr; by rewrite Hx).
      exact Hrun. }
    split; [by rewrite Hlen, length_insert|].
    intros i. rewrite Hv', filter_cons.
    destruct (decide (j = i)) as [->|Hne].
    + rewrite list_lookup_insert_eq by done. rewrite Hx. simpl. f_equal. lia.
    + by rewrite list_lookup_insert_ne by done.
Qed.

Lemma foldM_fmap {A B S} (f : S → B → result S) (g : A → B) s (l : list A) :
  foldM (λ s x, f s (g x)) s l = foldM f s (g <$> l).
Proof.
  revert s. induction l as [|x l IH]; intros s; [done|].
  simpl. destruct (f s (g x)); simpl; auto.
Qed.

Lemma dist_lang_fold v its :
  foldM (λ retval '(d, l, n, p), vec_incr l retval) v its
  = foldM (λ retval i, vec_incr i retval) v (item_lang <$> its).
Proof.
  revert v. induction its as [|[[[d l] n] p] its IH];
    intros v; [done|].
  rewrite fmap_cons.
  change (foldM ?f v (?x :: ?r)) with (s' ← f v x; foldM f s' r).
  cbv beta iota. change (item_lang (d, l, n, p)) with l.
  destruct (vec_incr l v) as [v'| |]; [|done..]. apply IH.
Qed.

Lemma dist_domain_fold v its :
  foldM (λ retval '(d, l, n, p), vec_incr d retval) v its
  = foldM (λ retval i, vec_incr i retval) v (item_domain <$> its).
Proof.
  revert v. induction its as [|[[[d l] n] p] its IH];
    intros v; [done|].
  rewrite fmap_cons.
  change (foldM ?f v (?x :: ?r)) with (s' ← f v x; foldM f s' r).
  cbv beta iota. change (item_domain (d, l, n, p)) with d.
  destruct (vec_incr d v) as [v'| |]; [|done..]. apply IH.
Qed.

Lemma count_omap {A B} (g : A → option B) (P : B → Prop) (Q : A → Prop)
    `{!∀ y, Decision (P y)} `{!∀ x, Decision (Q x)} (l : list A) :
  Forall (λ x, Q x ↔ ∃ y, g x = Some y ∧ P y) l →
  length (filter P (omap g l)) = length (filter Q l).
Proof.
  induction 1 as [|x l Hx _ IH]; [done|].
  rewrite omap_cons', filter_cons. destruct (g x) as [y|] eqn:E.
  - rewrite filter_cons. destruct (decide (P y)) as [Hy|Hy].
    + rewrite decide_True by (apply Hx; eauto). simpl. by rewrite IH.
    + rewrite decide_False; [done|]. intros (y' & [= <-] & ?)%Hx. done.
  - rewrite decide_False; [done|]. by intros (y' & [=] & ?)%Hx.
Qed.

Lemma filter_fmap_length {A B} (g : A → B) (P : B → Prop)
    `{!∀ y, Decision (P y)} (l : list A) :
  length (filter P (g <$> l)) = length (filter (λ x, P (g x)) l).
Proof.
  induction l as [|x l IH]; [done|].
  rewrite fmap_cons, !filter_cons. destruct (decide (P (g x))); simpl; auto.
Qed.

Lemma fmap_omap_filter {A B C} (g : A → option B) (k : B → C) (h : A → C)
    (P : A → Prop) `{!∀ x, Decision (P x)} (l : list A) :
  Forall (λ x, (P x → ∃ y, g x = Some y ∧ k y = h x)
               ∧ (¬ P x → g x = None)) l →
  k <$> omap g l = h <$> filter P l.
Proof.
  induction 1 as [|x l [Hy Hn] _ IH]; [done|].
  rewrite omap_cons', filter_cons. destruct (decide (P x)) as [Hx|Hx].
  - destruct (Hy Hx) as (y & -> & Hk). by rewrite !fmap_cons, Hk, IH.
  - by rewrite (Hn Hx).
Qed.

Lemma dict_get_enumerate_swapped_lookup (L : list string) i k :
  NoDup L → L !! i = Some k → dict_get k (enumerate_swapped L) = Some i.
Proof.
  intros Hnd Hi.
  destruct (proj2 (dict_get_enumerate_swapped_is_Some L k)) as [j Hj].
  { by eapply list_elem_of_lookup_2. }
  rewrite Hj. f_equal. apply dict_get_enumerate_swapped_Some in Hj.
  by eapply NoDup_lookup.
Qed.

Lemma docs_docs domains root :
  docs domains (docs domains root) = docs domains root.
Proof.
  unfold docs. induction root as [|f root IH]; [done|].
  rewrite filter_cons. case_decide as Hf; [|done].
  by rewrite filter_cons, decide_True, IH by done.
Qed.

(** The item of a recorded document under the tables of the indexer that
    the constructor returns. *)
Lemma item_of_pruned md domains root f :
  let ds := docs domains root in
  let L' := filter (retained md ds) (first_seen (w_lang <$> ds)) in
  f ∈ ds →
  NoDup L'
  ∧ ∃ d, dict_get (w_domain f) (index_entries (domain_table domains ds))
         = Some d
       ∧ item_of (index_entries (domain_table domains ds))
           (enumerate_swapped L') f
         = (λ l, (d, l, w_docname f, w_path f))
             <$> dict_get (w_lang f) (enumerate_swapped L')
       ∧ (is_Some (dict_get (w_lang f) (enumerate_swapped L'))
          ↔ retained md ds (w_lang f)).
Proof.
  intros ds L' Hf.
  split; [apply NoDup_filter, NoDup_first_seen|].
  destruct (index_spec md domains root) as [_ Hall].
  rewrite Forall_forall in Hall. destruct (Hall f Hf) as [it Hit].
  unfold item_of in Hit |- *. fold ds in Hit.
  destruct (dict_get (w_domain f) _) as [d|]; simpl in *; [|done].
  exists d. split; [done|]. split; [by destruct (dict_get _ _)|].
  rewrite dict_get_enumerate_swapped_is_Some. unfold L'.
  rewrite list_elem_of_filter, elem_of_first_seen.
  split; [tauto|]. intros ?. split; [done|].
  apply list_elem_of_fmap. eauto.
Qed.

End IndexMore.

Module IndexExtras.
Import Index IndexFacts IndexMore IndexExamples.

(** X1.  With a pre-specified language list the constructor raises
    [TypeError] as soon as one file is recorded (selected, and in a listed
    domain if domains are listed), whatever the languages of the list:
    [lang_index] is then a set of pairs, which the first lookup cannot
    subscript. *)
Theorem language_list_makes_init_raise (root : list walked) (md : Z)
    (ls : list string) (domains : option (list string)) :
  docs domains root ≠ [] →
  init root md (Some ls) domains = Raise TypeError.
Proof. apply init_langs_TypeError. Qed.

Lemma language_list_makes_init_raise_witness :
  init corpus_web 1 (Some ["fr"; "en"]) None = Raise TypeError.
Proof. apply (language_list_makes_init_raise corpus_web). vm_compute. done. Defined.

(** X2.  Without a language list the constructor reads the recorded files
    only: the files that were not selected and the files of a domain
    outside the domain list leave no trace, neither an id nor an item. *)
Theorem init_reads_recorded_files_only (root : list walked) (md : Z)
    (domains : option (list string)) :
  init root md None domains = init (docs domains root) md None domains.
Proof. by rewrite !init_None_spec, docs_docs. Qed.

(** X3.  Without a language list, [paths] lists the paths of the recorded
    documents whose language is retained, in walk order, one per item. *)
Theorem paths_of_retained_documents (root : list walked) (md : Z)
    (domains : option (list string)) :
  let ds := docs domains root in
  ∃ ix, init root md None domains = Ok ix
      ∧ paths ix = w_path <$> filter (λ f, retained md ds (w_lang f)) ds
      ∧ length (items ix) = length (paths ix).
Proof.
  intros ds. exists (pruned md domains ds).
  split; [apply init_None_spec|]. split; [|unfold paths; by rewrite length_fmap].
  unfold paths, pruned. cbn [items].
  apply fmap_omap_filter, Forall_forall. intros f Hf.
  destruct (item_of_pruned md domains root f Hf) as (_ & d & _ & Hit & Hr).
  fold ds in Hit, Hr. rewrite Hit. split.
  - intros [l Hl]%Hr. rewrite Hl. eexists. split; [reflexivity|done].
  - intros Hn. destruct (dict_get (w_lang f) _) eqn:E; [|done].
    destruct Hn. apply Hr. eauto.
Qed.

(** X4.  Without a language list, [dist_lang] returns a vector with one
    entry per retained language, and the entry of a language is the
    number of recorded documents in that language; no index is out of
    range. *)
Theorem dist_lang_counts_documents (root : list walked) (md : Z)
    (domains : option (list string)) :
  let ds := docs domains root in
  ∃ ix v, init root md None domains = Ok ix
        ∧ dist_lang ix = Ok v
        ∧ length v = length (index_entries (lang_index ix))
        ∧ ∀ lang id, (lang, id) ∈ index_entries (lang_index ix) →
            v !! id
            = Some (Z.of_nat (length (filter (λ f, w_lang f = lang) ds))).
Proof.
  intros ds. set (L' := filter (retained md ds) (first_seen (w_lang <$> ds))).
  assert (NoDup L') as Hnd by apply NoDup_filter, NoDup_first_seen.
  set (g := item_of (index_entries (domain_table domains ds))
              (enumerate_swapped L')).
  destruct (vec_incr_fold (item_lang <$> omap g ds)
              (replicate (length L') 0%Z)) as (v & Hrun & Hlen & Hv).
  { apply Forall_fmap, Forall_forall.
    intros [[[d l] n] p] (f & Hf & Hg)%list_elem_of_omap.
    destruct (item_of_pruned md domains root f Hf) as (_ & d' & _ & Hit & _).
    fold ds L' g in Hit. rewrite Hit in Hg.
    destruct (dict_get (w_lang f) _) as [l'|] eqn:E; [|done].
    injection Hg as <- <- <- <-. cbn.
    apply dict_get_enumerate_swapped_Some, lookup_lt_Some in E.
    by rewrite length_replicate. }
  exists (pruned md domains ds), v.
  split; [apply init_None_spec|]. split; [|split].
  - unfold dist_lang, pruned, index_len.
    cbn [lang_index items index_entries].
    by rewrite enumerate_swapped_length, dist_lang_fold.
  - unfold pruned. cbn [lang_index index_entries].
    by rewrite Hlen, length_replicate, enumerate_swapped_length.
  - unfold pruned. cbn [lang_index index_entries]. intros lang id Hin.
    apply elem_of_enumerate_swapped in Hin.
    rewrite Hv, lookup_replicate_2 by (by eapply lookup_lt_Some).
    cbn [fmap option_fmap option_map]. f_equal. rewrite Z.add_0_l. f_equal.
    rewrite (filter_fmap_length item_lang (λ j, j = id)).
    apply (count_omap g (λ it, item_lang it = id) (λ f, w_lang f = lang)).
    apply Forall_forall. intros f Hf.
    destruct (item_of_pruned md domains root f Hf) as (_ & d & _ & Hit & _).
    fold ds L' g in Hit. rewrite Hit. split.
    + intros <-.
      rewrite (dict_get_enumerate_swapped_lookup L' id (w_lang f)) by done.
      eexists. split; [reflexivity|done].
    + intros (y & Hy & Hid).
      destruct (dict_get (w_lang f) _) as [l|] eqn:E; [|done].
      injection Hy as <-. cbn in Hid. subst l.
      apply dict_get_enumerate_swapped_Some in E. unfold L' in E.
      congruence.
Qed.

(** X5.  Without a language list, pruning leaves the domains and the
    coverage as [index] recorded them: every domain of a recorded
    document keeps the id of its first occurrence, also when all its
    documents are pruned, and [coverage_index] relates a domain and a
    language exactly when a recorded document has both, pruned languages
    included. *)
Theorem pruning_keeps_domains_and_coverage (root : list walked) (md : Z) :
  let ds := docs None root in
  ∃ ix, init root md None None = Ok ix
      ∧ index_entries (domain_index ix)
        = enumerate_swapped (first_seen (w_domain <$> ds))
      ∧ ∀ d l, (∃ s, (d, s) ∈ coverage_index ix ∧ l ∈ s)
               ↔ ∃ f, f ∈ ds ∧ w_domain f = d ∧ w_lang f = l.
Proof.
  intros ds. exists (pruned md None ds).
  split; [apply init_None_spec|]. split; [done|].
  unfold pruned. cbn [coverage_index].
  destruct (coverage_of_ok ds) as [_ Hsets Hdom]. intros d l. split.
  - intros (s & Hs & Hl). by apply (Hsets d s Hs).
  - intros (f & Hf & <- & <-).
    pose proof (Hdom f Hf) as Hin. apply list_elem_of_fmap in Hin.
    destruct Hin as ([d s] & Hd & Hin). cbn [fst] in Hd.
    exists s. rewrite Hd. split; [done|].
    destruct (Hsets d s Hin) as [_ Hl]. apply Hl. exists f. by rewrite Hd.
Qed.

(** X6.  Without language or domain list, [dist_domain] returns a vector
    with one entry per domain of the recorded documents, and the entry of
    a domain is the number of its recorded documents in a retained
    language: a domain whose documents were all pruned has a zero. *)
Theorem dist_domain_counts_documents (root : list walked) (md : Z) :
  let ds := docs None root in
  ∃ ix v, init root md None None = Ok ix
        ∧ dist_domain ix = Ok v
        ∧ length v = length (first_seen (w_domain <$> ds))
        ∧ ∀ dom id, (dom, id) ∈ index_entries (domain_index ix) →
            v !! id
            = Some (Z.of_nat (length (filter
                (λ f, w_domain f = dom ∧ retained md ds (w_lang f)) ds))).
Proof.
  intros ds. set (L' := filter (retained md ds) (first_seen (w_lang <$> ds))).
  set (D := first_seen (w_domain <$> ds)).
  assert (NoDup D) as Hnd by apply NoDup_first_seen.
  set (g := item_of (enumerate_swapped D) (enumerate_swapped L')).
  destruct (vec_incr_fold (item_domain <$> omap g ds)
              (replicate (length D) 0%Z)) as (v & Hrun & Hlen & Hv).
  { apply Forall_fmap, Forall_forall.
    intros [[[d l] n] p] (f & Hf & Hg)%list_elem_of_omap.
    destruct (item_of_pruned md None root f Hf) as (_ & d' & Hd & Hit & _).
    cbn [domain_table index_entries] in Hd, Hit. fold ds D L' g in Hd, Hit.
    rewrite Hit in Hg.
    destruct (dict_get (w_lang f) _) as [l'|] eqn:E; [|done].
    injection Hg as <- <- <- <-. cbn.
    apply dict_get_enumerate_swapped_Some, lookup_lt_Some in Hd.
    by rewrite length_replicate. }
  exists (pruned md None ds), v.
  split; [apply init_None_spec|]. split; [|split].
  - unfold dist_domain, pruned, index_len.
    cbn [domain_index items index_entries domain_table].
    by rewrite enumerate_swapped_length, dist_domain_fold.
  - by rewrite Hlen, length_replicate.
  - unfold pruned. cbn [domain_index index_entries domain_table].
    intros dom id Hin. apply elem_of_enumerate_swapped in Hin. fold ds D in Hin.
    rewrite Hv, lookup_replicate_2 by (by eapply lookup_lt_Some).
    cbn [fmap option_fmap option_map]. f_equal. rewrite Z.add_0_l. f_equal.
    rewrite (filter_fmap_length item_domain (λ j, j = id)).
    apply (count_omap g (λ it, item_domain it = id)
             (λ f, w_domain f = dom ∧ retained md ds (w_lang f))).
    apply Forall_forall. intros f Hf.
    destruct (item_of_pruned md None root f Hf) as (_ & d & Hd & Hit & Hr).
    cbn [domain_table index_entries] in Hd, Hit.
    fold ds D L' g in Hd, Hit, Hr. rewrite Hit.
    apply dict_get_enumerate_swapped_Some in Hd. split.
    + intros [<- [l Hl]%Hr]. rewrite Hl. eexists. split; [reflexivity|].
      cbn. by eapply NoDup_lookup.
    + intros (y & Hy & Hid).
      destruct (dict_get (w_lang f) _) as [l|] eqn:E; [|done].
      injection Hy as <-. cbn in Hid. subst d. split; [congruence|].
      apply Hr. eauto.
Qed.

End IndexExtras.

Module CommonFacts.
Import Common.

(** Decoding undoes the encoding of one byte, whatever follows. *)
Lemma unescape_repr_byte quote c tail :
  quote = squote ∨ quote = dquote →
  unescape true quote (repr_byte quote c ++ tail)
  = push c (unescape true quote tail).
Proof.
  intros [-> | ->]; destruct c; reflexivity.
Qed.

Lemma unescape_repr_body quote s rest :
  quote = squote ∨ quote = dquote →
  unescape true quote (flat_map (repr_byte quote) s ++ quote :: rest)
  = Some (s, rest).
Proof.
  intros Hq. induction s as [|c s IH]; simpl.
  - by rewrite decide_True.
  - rewrite <-app_assoc, unescape_repr_byte, IH by done. done.
Qed.

Lemma repr_byte_head quote c :
  quote = squote ∨ quote = dquote →
  ∃ h t, repr_byte quote c = h :: t ∧ h ≠ quote.
Proof.
  intros [-> | ->]; destruct c; eexists _, _; (split; [reflexivity|done]).
Qed.

(** What [repr] writes for a byte is printable ASCII. *)
Lemma repr_byte_printable quote c :
  quote = squote ∨ quote = dquote →
  Forall (λ x, 32 ≤ byte_value x < 127) (repr_byte quote c).
Proof.
  intros [-> | ->]; destruct c;
    refine (bool_decide_unpack (Forall _ _) _); vm_compute; exact I.
Qed.

Lemma quote_for_cases s : quote_for s = squote ∨ quote_for s = dquote.
Proof. unfold quote_for. destruct (_ && _); auto. Qed.

Lemma repr_printable s : Forall (λ x, 32 ≤ byte_value x < 127) (repr s).
Proof.
  unfold repr. pose proof (quote_for_cases s) as Hq.
  set (q := quote_for s) in *. clearbody q.
  assert (32 ≤ byte_value q < 127) as Hqp
    by (destruct Hq as [-> | ->]; vm_compute; lia).
  apply Forall_cons. split; [vm_compute; lia|].
  apply Forall_cons. split; [done|].
  apply Forall_app. split; [|by apply Forall_singleton].
  induction s as [|c s IH]; simpl; [constructor|].
  apply Forall_app. split; [by apply repr_byte_printable|done].
Qed.

Lemma repr_no_newline s : (newline ∉ repr s) ∧ (creturn ∉ repr s).
Proof.
  pose proof (repr_printable s) as Hp. rewrite Forall_forall in Hp.
  split; intros Hin%Hp; vm_compute in Hin; lia.
Qed.

(** [eval] reads back what [repr] wrote on a line. *)
Lemma eval_literal_bytes q body :
  q = squote ∨ q = dquote →
  eval_literal (x62 :: q :: body) =
    if decide (take 2 body = [q; q]) then Raise SyntaxError
    else match unescape true q body with
         | Some (w, rest) =>
             if decide (rest = [] ∨ rest = [newline]) then Ok (Bytes w)
             else Raise SyntaxError
         | None => Raise SyntaxError
         end.
Proof. by intros [-> | ->]. Qed.

Lemma eval_repr s : eval_literal (repr s ++ [newline]) = Ok (Bytes s).
Proof.
  unfold repr. pose proof (quote_for_cases s) as Hq.
  set (q := quote_for s) in *. clearbody q.
  change ((x62 :: q :: flat_map (repr_byte q) s ++ [q]) ++ [newline])
    with (x62 :: q :: (flat_map (repr_byte q) s ++ [q]) ++ [newline]).
  rewrite eval_literal_bytes by done.
  assert ((flat_map (repr_byte q) s ++ [q]) ++ [newline]
          = flat_map (repr_byte q) s ++ q :: [newline]) as ->
    by (by rewrite <-app_assoc).
  rewrite decide_False.
  - rewrite unescape_repr_body by done. by rewrite decide_True by auto.
  - destruct s as [|c s]; simpl.
    + intros [=]. by destruct Hq as [-> | ->].
    + destruct (repr_byte_head q c Hq) as (h & t & -> & Hh). simpl.
      destruct t; simpl; intros [=]; done.
Qed.

Lemma lines_from_line cur l rest :
  newline ∉ l → creturn ∉ l →
  lines_from cur (l ++ newline :: rest)
  = (cur ++ l ++ [newline]) :: lines_from [] rest.
Proof.
  revert cur. induction l as [|c l IH]; intros cur Hl Hr.
  - cbn [app lines_from]. by rewrite decide_True.
  - apply not_elem_of_cons in Hl as [Hc Hl].
    apply not_elem_of_cons in Hr as [Hc' Hr].
    rewrite <-app_comm_cons. cbn [lines_from].
    rewrite decide_False by done. rewrite decide_False by done.
    rewrite IH by done. by rewrite <-app_assoc.
Qed.

Lemma lines_written (features : list (list byte)) :
  lines (flat_map (λ feat, repr feat ++ [newline]) features)
  = (λ feat, repr feat ++ [newline]) <$> features.
Proof.
  unfold lines. induction features as [|f fs IH]; [done|].
  change (flat_map ?g (f :: fs)) with (g f ++ flat_map g fs).
  rewrite fmap_cons, <-IH, <-app_assoc.
  change ([newline] ++ ?x) with (newline :: x).
  by rewrite (lines_from_line [] (repr f)) by apply repr_no_newline.
Qed.

(** Taking the lines of an open file to the end. *)
Lemma map_eval_list_open (features : list (list byte)) fuel :
  length features < fuel →
  map_eval_list fuel
    (MapEval (mkFile ((λ feat, repr feat ++ [newline]) <$> features) false))
  = Ok (Bytes <$> features).
Proof.
  revert fuel. induction features as [|f fs IH]; intros [|fuel] Hf;
    simpl in Hf; try lia; [done|].
  cbn [map_eval_list]. unfold map_eval_next. cbn [me_file f_closed f_lines].
  rewrite fmap_cons, eval_repr. cbn [mbind result_bind].
  rewrite IH by lia. done.
Qed.

Lemma read_features_written features path fs :
  read_features path (write_features features path fs)
  = Ok (MapEval (mkFile ((λ feat, repr feat ++ [newline]) <$> features)
                        true)).
Proof.
  unfold read_features, write_features. rewrite lookup_insert_eq.
  cbn [of_option mbind result_bind]. by rewrite lines_written.
Qed.

End CommonFacts.

Module CommonClaims.
Import Common CommonFacts CommonExamples.

(** C8 (code bug).  For every list of features, every path and every
    state of the file system, [read_features] on the path that
    [write_features] wrote returns an iterator over a file that is
    already closed: the first item asked of it raises [ValueError], and
    so does taking its items to a list.  No feature is read back. *)
Theorem read_features_gives_closed_file (features : list (list byte))
    (path : string) (fs : gmap string (list byte)) (fuel : nat) :
  ∃ it, read_features path (write_features features path fs) = Ok it
      ∧ f_closed (me_file it) = true
      ∧ map_eval_next it
        = Raise (ValueError "I/O operation on closed file.")
      ∧ map_eval_list (S fuel) it
        = Raise (ValueError "I/O operation on closed file.").
Proof.
  eexists. split; [apply read_features_written|]. done.
Qed.

(** C9 (code bug).  With [processes = 1] the context manager creates no
    pool and yields nothing: entering it raises [NameError], where the
    name [imap] is evaluated, or [TypeError] before that, when an
    initializer is given without [initargs]; no task is run.  With
    [processes] unspecified a pool of [cpu_count + 4] processes is
    created and the closure over its [imap_unordered] is yielded. *)
Theorem MapPool_single_process_raises {F A : Type} (cpu_count : positive)
    (initializer : option F) (initargs : option (list A))
    (maxtasksperchild : option Z) (chunksize : Z) :
  (let c := MapPool cpu_count (Some 1%Z) initializer initargs
              maxtasksperchild chunksize in
   yielded c = Raise (match initializer, initargs with
                      | Some _, None => TypeError
                      | _, _ => NameError
                      end)
   ∧ (∀ p i a m, PoolCreated p i a m ∉ on_enter c ++ on_exit c)
   ∧ on_enter c = match initializer, initargs with
                  | Some init, Some args => [InitializerCalled init args]
                  | _, _ => []
                  end)
  ∧ (let c := MapPool cpu_count None initializer initargs
                maxtasksperchild chunksize in
     on_enter c = [PoolCreated (Z.pos cpu_count + 4) initializer initargs
                     maxtasksperchild]
     ∧ yielded c = Ok (PoolImapUnordered (Z.pos cpu_count + 4) chunksize)
     ∧ on_exit c = [PoolClosed; PoolJoined]).
Proof.
  split.
  - unfold MapPool. rewrite decide_False by lia.
    destruct initializer as [init|], initargs as [args|]; cbn;
      (split_and!; [done| |done]); intros p i a m;
      rewrite ?app_nil_r; try apply not_elem_of_nil.
    by rewrite list_elem_of_singleton.
  - unfold MapPool. rewrite decide_True by lia. done.
Qed.

End CommonClaims.

Module CommonMore.
Import Common CommonFacts.


End CommonMore.

Module CommonExtras.
Import Common CommonFacts CommonMore CommonExamples.

(** X7.  The file that [write_features] writes holds one line per
    feature, the [repr] of the feature, and these lines evaluate back to
    the features, in order: an iterator [map(eval, f)] over the file
    still open gives the features themselves. *)
Theorem written_lines_evaluate_back (features : list (list byte))
    (path : string) (fs : gmap string (list byte)) (fuel : nat) :
  length features < fuel →
  ∃ content,
    write_features features path fs !! path = Some content
    ∧ lines content = (λ feat, repr feat ++ [newline]) <$> features
    ∧ map_eval_list fuel (MapEval (mkFile (lines content) false))
      = Ok (Bytes <$> features).
Proof.
  intros Hf. eexists. split; [apply lookup_insert_eq|].
  rewrite lines_written. split; [done|]. by apply map_eval_list_open.
Qed.

Lemma written_lines_evaluate_back_witness :
  ∃ content,
    write_features feats "LDfeats" ∅ !! "LDfeats" = Some content
    ∧ lines content = (λ feat, repr feat ++ [newline]) <$> feats
    ∧ map_eval_list 4 (MapEval (mkFile (lines content) false))
      = Ok (Bytes <$> feats).
Proof. apply (written_lines_evaluate_back feats). simpl. lia. Defined.

(** X8.  What [write_features] writes is printable ASCII text and line
    feeds, whatever bytes the features hold; the file replaces what the
    path held, and the other paths are left as they were. *)
Theorem written_file_is_ascii_text (features : list (list byte))
    (path : string) (fs : gmap string (list byte)) :
  ∃ content,
    write_features features path fs !! path = Some content
    ∧ Forall (λ x, x = newline ∨ 32 ≤ byte_value x < 127) content
    ∧ write_features features path ∅ !! path = Some content
    ∧ ∀ other, other ≠ path →
               write_features features path fs !! other = fs !! other.
Proof.
  eexists. split; [apply lookup_insert_eq|]. split; [|split].
  - induction features as [|f features IH]; [constructor|].
    cbn [flat_map]. rewrite <-app_assoc.
    apply Forall_app. split; [|apply Forall_cons; split; [by left|done]].
    eapply Forall_impl; [apply repr_printable|]. intros x ?. by right.
  - unfold write_features. by rewrite lookup_insert_eq.
  - intros other Hne. unfold write_features. by rewrite lookup_insert_ne.
Qed.





End CommonExtras.

Local Close Scope string_scope.

Module ScannerFacts.
Import Scanner.

(** *** Algorithm 2 *)

Lemma follow_spec goto n lbl s a w :
  trie_shape goto n lbl → lbl !! s = Some w →
  ∃ pre, a = pre ++ (follow goto s a).2
       ∧ lbl !! (follow goto s a).1 = Some (w ++ pre)
       ∧ match (follow goto s a).2 with
         | [] => True
         | c :: _ => w ++ pre ++ [c] ∉ lbl
         end.
Proof.
  intros Hsh. revert s w. induction a as [|c a IH]; intros s w Hs; simpl.
  - exists []. by rewrite !app_nil_r.
  - destruct (goto !! (s, c)) as [s'|] eqn:E.
    + apply (tr_goto _ _ _ Hsh) in E as (w' & Hw' & Hs'). simplify_eq.
      destruct (IH s' (w ++ [c]) Hs') as (pre & Hpre & Hl & Hf).
      exists (c :: pre). rewrite <-!app_assoc in *. simpl in *.
      split_and!; [by f_equal|done|].
      destruct (follow goto s' a).2; [done|].
      by rewrite <-app_assoc in Hf.
    + exists []. simpl. rewrite app_nil_r. split_and!; [done..|].
      intros (s' & Hs')%list_elem_of_lookup_1.
      assert (goto !! (s, c) = Some s') as Hg
        by (apply (tr_goto _ _ _ Hsh); eauto).
      congruence.
Qed.

Lemma extend_labels_app lbl w a :
  ∃ new, extend_labels lbl w a = lbl ++ new
       ∧ length new = length a
       ∧ ∀ x, x ∈ new ↔ ∃ p, p ≠ [] ∧ p `prefix_of` a ∧ x = w ++ p.
Proof.
  revert lbl w. induction a as [|c a IH]; intros lbl w; simpl.
  - exists []. rewrite app_nil_r. split_and!; [done..|].
    intros x. split; [by intros ?%elem_of_nil|].
    intros (p & Hp & ->%prefix_nil_inv & _). done.
  - destruct (IH (lbl ++ [w ++ [c]]) (w ++ [c])) as (new & -> & Hlen & Hnew).
    exists ((w ++ [c]) :: new). rewrite <-app_assoc. simpl.
    split_and!; [done|by rewrite Hlen|].
    intros x. rewrite elem_of_cons, Hnew. split.
    + intros [->|(p & Hp & Hpa & ->)].
      * exists [c]. split_and!; [done| |done]. by apply prefix_cons, prefix_nil.
      * exists (c :: p). rewrite <-app_assoc. split_and!; [done| |done].
        by apply prefix_cons.
    + intros (p & Hp & Hpa & ->). destruct p as [|c' p]; [done|].
      apply prefix_cons_inv_1 in Hpa as Hc. subst c'.
      apply prefix_cons_inv_2 in Hpa.
      destruct p as [|c2 p]; [by left|]. right.
      exists (c2 :: p). rewrite <-app_assoc. done.
Qed.

Lemma shape_lookup_lt goto n lbl s w :
  trie_shape goto n lbl → lbl !! s = Some w → s ≤ n.
Proof.
  intros Hsh Hs. apply lookup_lt_Some in Hs.
  rewrite (tr_len _ _ _ Hsh) in Hs. lia.
Qed.

Lemma shape_inj goto n lbl s1 s2 w :
  trie_shape goto n lbl → lbl !! s1 = Some w → lbl !! s2 = Some w → s1 = s2.
Proof. intros Hsh. apply NoDup_lookup, Hsh. Qed.

Lemma shape_add_edge goto n lbl state w c :
  trie_shape goto n lbl → lbl !! state = Some w → w ++ [c] ∉ lbl →
  trie_shape (<[(state, c) := S n]> goto) (S n) (lbl ++ [w ++ [c]]).
Proof.
  intros Hsh Hst Hfresh.
  pose proof (tr_len _ _ _ Hsh) as Hlen.
  assert ((lbl ++ [w ++ [c]]) !! S n = Some (w ++ [c])) as Hnew.
  { by apply list_lookup_middle. }
  assert (∀ s x, (lbl ++ [w ++ [c]]) !! s = Some x →
                 (s = S n ∧ x = w ++ [c]) ∨ (s ≤ n ∧ lbl !! s = Some x)) as Hcases.
  { intros s x [?|[Hge Hx]]%lookup_app_Some.
    - right. split; [|done]. by eapply shape_lookup_lt.
    - left. apply list_lookup_singleton_Some in Hx as [E Hx].
      split; [lia|congruence]. }
  split.
  - apply lookup_app_l_Some, Hsh.
  - rewrite length_app. simpl. lia.
  - apply NoDup_app. split_and!; [apply Hsh| |apply NoDup_singleton].
    intros x ? ->%list_elem_of_singleton. done.
  - intros s c0 s'. rewrite lookup_insert. case_decide as Heq.
    + simplify_eq. split.
      * intros [= <-]. exists w. split; [by apply lookup_app_l_Some|done].
      * intros (w0 & Hs & Hs'). f_equal.
        apply Hcases in Hs' as [[? _]|[_ Hs']]; [done|].
        apply Hcases in Hs as [[-> _]|[_ Hs]].
        { apply lookup_lt_Some in Hst. lia. }
        simplify_eq. destruct Hfresh. by eapply list_elem_of_lookup_2.
    + rewrite (tr_goto _ _ _ Hsh). split.
      * intros (w0 & ? & ?). exists w0. split; by apply lookup_app_l_Some.
      * intros (w0 & Hs & Hs').
        apply Hcases in Hs' as [[-> Hw]|[_ Hs']].
        { apply app_inj_tail in Hw as [-> ->].
          apply Hcases in Hs as [[-> Hw]|[_ Hs]].
          - apply (f_equal length) in Hw. rewrite length_app in Hw.
            simpl in Hw. lia.
          - destruct Heq. f_equal. by eapply shape_inj. }
        apply Hcases in Hs as [[-> ->]|[_ Hs]]; [|eauto].
        destruct (tr_parent _ _ _ Hsh _ _ _ Hs') as (s0 & Hs0 & _).
        destruct Hfresh. by eapply list_elem_of_lookup_2.
  - intros s' w0 c0 Hs'.
    apply Hcases in Hs' as [[-> Hw]|[_ Hs']].
    + apply app_inj_tail in Hw as [-> ->]. exists state.
      split; [by apply lookup_app_l_Some|].
      apply (shape_lookup_lt _ _ _ _ _ Hsh) in Hst. lia.
    + destruct (tr_parent _ _ _ Hsh _ _ _ Hs') as (s0 & Hs0 & ?).
      exists s0. split; [by apply lookup_app_l_Some|done].
Qed.

Lemma shape_prefix_closed goto n lbl w w' :
  trie_shape goto n lbl → w ∈ lbl → w' `prefix_of` w → w' ∈ lbl.
Proof.
  intros Hsh Hw [ext ->]. revert Hw.
  induction ext as [|c ext IH] using rev_ind.
  - by rewrite app_nil_r.
  - rewrite app_assoc. intros (s & Hs)%list_elem_of_lookup_1.
    destruct (tr_parent _ _ _ Hsh _ _ _ Hs) as (s0 & Hs0 & _).
    apply IH. by eapply list_elem_of_lookup_2.
Qed.

Lemma extend_shape goto n lbl state w a :
  trie_shape goto n lbl → lbl !! state = Some w →
  match a with [] => True | c :: _ => w ++ [c] ∉ lbl end →
  trie_shape (extend goto n state a).1.1 (extend goto n state a).1.2
             (extend_labels lbl w a)
  ∧ extend_labels lbl w a !! (extend goto n state a).2 = Some (w ++ a)
  ∧ (extend goto n state a).1.2 = n + length a.
Proof.
  revert goto n lbl state w.
  induction a as [|c a IH]; intros goto n lbl state w Hsh Hst Hfresh; simpl.
  - rewrite app_nil_r. split_and!; [done|done|lia].
  - pose proof (shape_add_edge _ _ _ _ _ c Hsh Hst Hfresh) as Hsh'.
    destruct (IH (<[(state, c) := S n]> goto) (S n) (lbl ++ [w ++ [c]])
                 (S n) (w ++ [c]) Hsh') as (H1 & H2 & H3).
    + apply list_lookup_middle. by rewrite (tr_len _ _ _ Hsh).
    + destruct a as [|c' a]; [done|].
      rewrite elem_of_app, list_elem_of_singleton. intros [Hin|Heq].
      * destruct Hfresh. eapply shape_prefix_closed; [done..|].
        by exists [c'].
      * apply (f_equal length) in Heq. rewrite !length_app in Heq.
        simpl in Heq. lia.
    + rewrite <-app_assoc in H2. split_and!; [done|done|lia].
Qed.

Lemma prefix_app_cases {A} (w pre rest : list A) :
  w `prefix_of` pre ++ rest →
  w `prefix_of` pre ∨ ∃ p, p ≠ [] ∧ p `prefix_of` rest ∧ w = pre ++ p.
Proof.
  revert w. induction pre as [|x pre IH]; intros w Hw; simpl in *.
  - destruct w as [|y w]; [left; apply prefix_nil|].
    right. by exists (y :: w).
  - destruct w as [|y w]; [left; apply prefix_nil|].
    apply prefix_cons_inv_1 in Hw as Hxy. subst y.
    apply prefix_cons_inv_2 in Hw.
    destruct (IH w Hw) as [?|(p & ? & ? & ->)].
    + left. by apply prefix_cons.
    + right. by exists p.
Qed.

Lemma elem_of_output_add state a output s k :
  k ∈ output_add state a output !!! s ↔
    (s = state ∧ k = a) ∨ k ∈ output !!! s.
Proof.
  unfold output_add. destruct (decide (s = state)) as [->|Hne].
  - rewrite lookup_total_insert_eq, elem_of_union, elem_of_singleton.
    naive_solver.
  - rewrite lookup_total_insert_ne by done. naive_solver.
Qed.

Lemma enter_ok K t lbl a :
  trie_ok K t lbl →
  ∃ lbl', trie_ok (K ++ [a]) (enter t a) lbl'.
Proof.
  intros [Hsh Hkw Hout]. unfold enter.
  destruct (follow_spec _ _ _ 0 (elems a) [] Hsh (tr_root _ _ _ Hsh))
    as (pre & Ha & Hst & Hfresh).
  destruct (follow (t_goto t) 0 (elems a)) as [state rest]. simpl in *.
  destruct (extend_shape _ _ _ state pre rest Hsh Hst) as (Hsh' & Hst' & Hn').
  { destruct rest; [done|]. done. }
  destruct (extend_labels_app lbl pre rest) as (new & Hlbl' & _ & Hnew).
  destruct (extend (t_goto t) (t_newstate t) state rest) as [[goto' n'] state'].
  simpl in *. exists (extend_labels lbl pre rest).
  assert (∀ s x, lbl !! s = Some x → extend_labels lbl pre rest !! s = Some x)
    as Hmono.
  { intros s x Hs. rewrite Hlbl'. by apply lookup_app_l_Some. }
  split; simpl.
  - done.
  - intros w. rewrite Hlbl' at 1. rewrite elem_of_app, Hkw, Hnew.
    setoid_rewrite elem_of_app. setoid_rewrite list_elem_of_singleton.
    split.
    + intros [[?|(k & ? & ?)]|(p & ? & Hp & ->)]; [by left|eauto|].
      right. exists a. split; [by right|]. rewrite Ha.
      by apply prefix_app.
    + intros [?|(k & [?| ->] & Hw)]; [by left; left|left; eauto|].
      rewrite Ha in Hw. apply prefix_app_cases in Hw as [Hw|?]; [|by right].
      left. apply Hkw. eapply shape_prefix_closed; [done| |done].
      by eapply list_elem_of_lookup_2.
  - intros s k. rewrite elem_of_output_add, Hout, elem_of_app,
      list_elem_of_singleton. split.
    + intros [[-> ->]|[? ?]].
      * split; [by right|]. by rewrite Ha.
      * split; [by left|auto].
    + intros [[Hk| ->] Hs].
      * right. split; [done|].
        assert (elems k ∈ lbl) as (s1 & Hs1)%list_elem_of_lookup_1.
        { apply Hkw. right. by exists k. }
        rewrite <-(shape_inj _ _ _ s1 s (elems k) Hsh'); auto.
      * left. split; [|done].
        rewrite Ha in Hs. by eapply shape_inj.
Qed.

Lemma enter_all_snoc K a : enter_all (K ++ [a]) = enter (enter_all K) a.
Proof. unfold enter_all. by rewrite foldl_snoc. Qed.

(** The trie of Algorithm 2 holds the prefixes of the keywords. *)
Lemma enter_all_ok K : ∃ lbl, trie_ok K (enter_all K) lbl.
Proof.
  induction K as [|a K [lbl IH]] using rev_ind.
  - exists [[]]. split; [split|..]; simpl.
    + done.
    + done.
    + apply NoDup_singleton.
    + intros s c s'. rewrite lookup_empty. split; [done|].
      intros (w & Hs & Hs'). apply list_lookup_singleton_Some in Hs' as [_ Hw].
      by destruct w.
    + intros s' w c Hs'. apply list_lookup_singleton_Some in Hs' as [_ Hw].
      by destruct w.
    + intros w. rewrite list_elem_of_singleton. split; [by left|].
      intros [?|(k & ?%elem_of_nil & _)]; done.
    + intros s k. rewrite lookup_total_empty. split; [by intros ?%not_elem_of_empty|].
      by intros [?%elem_of_nil _].
  - rewrite enter_all_snoc. by eapply enter_ok.
Qed.

(** *** Loops over the shared iterator *)

Lemma for_items_nil {S} (body : S → sym → result S) s :
  for_items body s [] = (Ok s, []).
Proof. reflexivity. Qed.

(** A loop whose body does not raise takes every item and leaves the
    iterator empty. *)
Lemma for_items_Ok {S} (f : S → sym → S) s σ :
  for_items (λ s a, Ok (f s a)) s σ = (Ok (foldl f s σ), []).
Proof. revert s. induction σ as [|a σ IH]; intros s; [done|]. apply IH. Qed.

Lemma M_bind_Ok {A B} (k : A → M B) (m : M A) σ a σ' :
  m σ = (Ok a, σ') → (m ≫= k) σ = k a σ'.
Proof. unfold mbind, M_bind. by intros ->. Qed.

Lemma forM_unchanged {A S} (f : S → A → M S) s l σ :
  (∀ x, f s x σ = (Ok s, σ)) → forM f s l σ = (Ok s, σ).
Proof.
  intros Hf. induction l as [|x l IH]; [done|].
  cbn [forM]. by rewrite (M_bind_Ok _ _ _ _ _ (Hf x)).
Qed.

(** *** [build] *)

(** The root edges that the loop of line 94 adds for the items [σ] left in
    the iterator. *)
Lemma complete_root_run goto σ :
  complete_root goto σ
  = (Ok (foldl (λ goto a, match goto !! (0, a) with
                          | None => <[(0, a) := 0]> goto
                          | Some _ => goto
                          end) goto σ), []).
Proof. apply (for_items_Ok _ goto σ). Qed.

(** Whatever the iterator holds when [build] starts, the loop that
    completes the root takes it all: Algorithms 3 and 4 loop over nothing
    and leave [fail] and [nextmove] empty. *)
Lemma build_tables_run K σ :
  ∃ goto,
    complete_root (t_goto (enter_all K)) σ = (Ok goto, [])
    ∧ build_tables K σ
      = (Ok (mkTables goto ∅ (t_output (enter_all K)) ∅
               (t_newstate (enter_all K))), []).
Proof.
  eexists. split; [apply complete_root_run|].
  unfold build_tables.
  rewrite (M_bind_Ok _ _ _ _ _ (complete_root_run _ σ)). reflexivity.
Qed.

(** With the iterator empty the generator of the cells yields nothing. *)
Lemma generate_nm_arr_empty nm n tc :
  generate_nm_arr nm n tc [] = (Ok (mkArray tc []), []).
Proof.
  unfold generate_nm_arr.
  erewrite M_bind_Ok; [reflexivity|].
  by apply forM_unchanged.
Qed.

Lemma build_run K σ :
  build K σ
  = (Ok (mkScanner ∅ (elements <$> t_output (enter_all K)) (mkArray H [])),
     []).
Proof.
  destruct (build_tables_run K σ) as (goto & _ & Hrun).
  unfold build. rewrite (M_bind_Ok _ _ _ _ _ Hrun).
  cbn [tb_nextmove tb_newstate tb_output].
  erewrite M_bind_Ok; [reflexivity|].
  unfold try_except_OverflowError. by rewrite generate_nm_arr_empty.
Qed.

(** *** [search] *)

(** A search reads the array and the outputs only. *)
Lemma search_from_ext sc sc' state string :
  nm_arr sc = nm_arr sc' → output sc = output sc' →
  search_from sc state string = search_from sc' state string.
Proof.
  intros Harr Hout. revert state.
  induction string as [|x string IH]; intros state; [done|].
  cbn [search_from]. rewrite Harr, Hout.
  destruct (ord x) as [letter|]; [|done].
  destruct (a_cells (nm_arr sc') !! _) as [state'|]; [|done].
  by rewrite IH.
Qed.

Lemma search_empty_array sc string :
  a_cells (nm_arr sc) = [] →
  search sc string
  = ([], match string with
         | Bytes [] | Str [] => None
         | Bytes (_ :: _) => Some TypeError
         | Str (_ :: _) => Some IndexError
         end).
Proof.
  intros Hcells. unfold search.
  destruct string as [[|b l]|[|c l]]; try done.
  cbn [elems fmap list_fmap search_from ord]. by rewrite Hcells.
Qed.

(** *** Duplicate keywords *)

Lemma enter_present K t lbl k : trie_ok K t lbl → k ∈ K → enter t k = t.
Proof.
  intros Hok Hk. pose proof (tr_shape _ _ _ Hok) as Hsh.
  assert (elems k ∈ lbl) as Hkl
    by (apply (tr_keywords _ _ _ Hok); right; by exists k).
  destruct (follow_spec (t_goto t) (t_newstate t) lbl 0 (elems k) [] Hsh
              (tr_root _ _ _ Hsh)) as (pre & Hpre & Hst & Hrest).
  unfold enter.
  destruct (follow (t_goto t) 0 (elems k)) as [state rest]. cbn [fst snd] in *.
  destruct rest as [|c rest].
  2:{ destruct Hrest. cbn [app].
      apply (shape_prefix_closed _ _ _ (elems k) _ Hsh Hkl).
      rewrite Hpre. exists rest. by rewrite <-app_assoc. }
  rewrite app_nil_r in Hpre. subst pre. cbn [app] in Hst. cbn [extend].
  assert (k ∈ t_output t !!! state) as Hin.
  { apply (tr_output _ _ _ Hok). done. }
  unfold output_add.
  assert (t_output t !!! state ∪ {[k]} = t_output t !!! state) as ->
    by set_solver.
  rewrite insert_id.
  - by destruct t.
  - rewrite lookup_total_alt in Hin |- *.
    destruct (t_output t !! state); [done|]. by apply elem_of_empty in Hin.
Qed.

Lemma dedup_first_snoc K k :
  dedup_first (K ++ [k]) = set_add k (dedup_first K).
Proof. unfold dedup_first. by rewrite foldl_app. Qed.

Lemma elem_of_dedup_first K k : k ∈ dedup_first K ↔ k ∈ K.
Proof.
  induction K as [|x K IH] using rev_ind.
  - done.
  - rewrite dedup_first_snoc, elem_of_set_add, IH, elem_of_app,
      list_elem_of_singleton. tauto.
Qed.

Lemma NoDup_dedup_first K : NoDup (dedup_first K).
Proof.
  induction K as [|x K IH] using rev_ind; [constructor|].
  rewrite dedup_first_snoc. unfold set_add. case_decide; [done|].
  apply NoDup_app. split_and!; [done| |apply NoDup_singleton].
  by intros y ? ->%list_elem_of_singleton.
Qed.

Lemma enter_all_dedup_first K : enter_all (dedup_first K) = enter_all K.
Proof.
  induction K as [|k K IH] using rev_ind; [done|].
  rewrite dedup_first_snoc, (enter_all_snoc K). unfold set_add.
  destruct (enter_all_ok K) as [lbl Hok]. case_decide as Hk.
  - rewrite IH. symmetry. eapply enter_present; [done|].
    by apply elem_of_dedup_first.
  - by rewrite enter_all_snoc, IH.
Qed.

Lemma build_tables_dedup_first K :
  build_tables (dedup_first K) = build_tables K.
Proof. unfold build_tables. by rewrite enter_all_dedup_first. Qed.

Lemma build_dedup_first K : build (dedup_first K) = build K.
Proof. unfold build. by rewrite build_tables_dedup_first. Qed.

End ScannerFacts.

Module ScannerClaims.
Import Scanner ScannerExamples ScannerFacts.

(** C1 (code bug).  Whatever the keywords [K], whatever the shared
    iterator [alphabet] still holds, a scanner built over [K] yields no
    keyword on any text: on a non-empty [bytes] text [search] raises
    [TypeError], on a non-empty [str] text it raises [IndexError], and on
    an empty text it ends at once.  So for the keywords ab, bc, abc and
    the text ababc nothing is yielded, where each keyword occurs. *)
Theorem scan_yields_nothing (K : list keyword) (σ : iterator)
    (string : pystring) :
  scan K string σ
  = (Ok ([], match string with
             | Bytes [] | Str [] => None
             | Bytes (_ :: _) => Some TypeError
             | Str (_ :: _) => Some IndexError
             end), []).
Proof.
  unfold scan. rewrite (M_bind_Ok _ _ _ _ _ (build_run K σ)).
  unfold mret, M_ret. by rewrite search_empty_array.
Qed.

(** C2 (code bug).  Whatever the keywords and the state of the shared
    iterator, [build] returns a scanner whose next-move table and packed
    array are empty: there is no entry for the root state, for any
    letter, neither in [nextmove] nor in [nm_arr]. *)
Theorem build_leaves_no_root_row (K : list keyword) (σ : iterator) :
  ∃ sc, build K σ = (Ok sc, [])
      ∧ nextmove sc = ∅
      ∧ a_cells (nm_arr sc) = []
      ∧ ∀ letter b,
          nextmove sc !! (int 0, letter) = None
          ∧ a_cells (nm_arr sc) !! (0 * 256 + b) = None.
Proof.
  eexists. split; [apply build_run|]. cbn [nextmove nm_arr a_cells].
  split; [done|]. split; [done|]. intros letter b.
  by rewrite lookup_empty.
Qed.

(** C3.  [build] returns a scanner [sc]; the scanner restored by
    [setstate] from [getstate sc] is [sc] itself: same array, same
    outputs, same next-move table.  And for every scanner, built or not,
    the restored scanner has the same array and outputs, so that its
    search yields the same keys and ends in the same way on every text. *)
Theorem getstate_setstate_round_trip (K : list keyword) (σ : iterator) :
  (∃ sc, build K σ = (Ok sc, []) ∧ setstate (getstate sc) = sc)
  ∧ ∀ sc string,
      nm_arr (setstate (getstate sc)) = nm_arr sc
      ∧ output (setstate (getstate sc)) = output sc
      ∧ search (setstate (getstate sc)) string = search sc string.
Proof.
  split.
  - eexists. split; [apply build_run|]. reflexivity.
  - intros sc string. split; [done|]. split; [done|].
    by apply search_from_ext.
Qed.

(** C7 (code bug).  Whatever the keywords, however many states their
    trie has, and whatever the state of the shared iterator, the array
    that [build] packs has typecode ['H'] and no cell: the generator of
    the cells yields nothing, so [OverflowError] is not raised and the
    wider typecode is not tried; no cell holds a next move. *)
Theorem nm_arr_is_empty (K : list keyword) (σ : iterator) :
  ∃ tb sc,
    build_tables K σ = (Ok tb, [])
    ∧ generate_nm_arr (tb_nextmove tb) (tb_newstate tb) H []
      = (Ok (mkArray H []), [])
    ∧ build K σ = (Ok sc, [])
    ∧ nm_arr sc = mkArray H []
    ∧ tb_newstate tb = t_newstate (enter_all K).
Proof.
  destruct (build_tables_run K σ) as (goto & _ & Hrun).
  eexists _, _. split; [exact Hrun|]. split; [apply generate_nm_arr_empty|].
  split; [apply build_run|]. done.
Qed.

(** C10.  For a keyword list [K] that holds a keyword [k], more than once
    or not: from the same state of the shared iterator, [build] over [K]
    and over [K] without its duplicates, first occurrences kept, compute
    the same tables (goto edges, failure links, outputs, next moves) and
    the same scanner, and a search gives the same result on every text;
    the scanners are the same also when the two builds start from
    different states of the iterator; Algorithm 2 makes the same trie for
    both lists, and entering [k] once more leaves the trie as it is: no
    new state. *)
Theorem build_duplicate_keywords (K : list keyword) (k : keyword) :
  k ∈ K →
  (∀ σ, build_tables K σ = build_tables (dedup_first K) σ)
  ∧ (∀ σ, build K σ = build (dedup_first K) σ)
  ∧ (∀ σ σ', (build K σ).1 = (build (dedup_first K) σ').1)
  ∧ (∀ σ string, scan K string σ = scan (dedup_first K) string σ)
  ∧ enter_all K = enter_all (dedup_first K)
  ∧ enter_all (K ++ [k]) = enter_all K.
Proof.
  intros Hk.
  split; [intros σ; by rewrite build_tables_dedup_first|].
  split; [intros σ; by rewrite build_dedup_first|].
  split.
  { intros σ σ'. by rewrite !build_run, enter_all_dedup_first. }
  split; [intros σ string; unfold scan; by rewrite build_dedup_first|].
  split; [by rewrite enter_all_dedup_first|].
  rewrite enter_all_snoc. destruct (enter_all_ok K) as [lbl Hok].
  by eapply enter_present.
Qed.

Lemma build_duplicate_keywords_witness :
  (∀ σ, build_tables [ab; bc; ab] σ
        = build_tables (dedup_first [ab; bc; ab]) σ)
  ∧ (∀ σ, build [ab; bc; ab] σ = build (dedup_first [ab; bc; ab]) σ)
  ∧ (∀ σ σ', (build [ab; bc; ab] σ).1
             = (build (dedup_first [ab; bc; ab]) σ').1)
  ∧ (∀ σ string, scan [ab; bc; ab] string σ
                 = scan (dedup_first [ab; bc; ab]) string σ)
  ∧ enter_all [ab; bc; ab] = enter_all (dedup_first [ab; bc; ab])
  ∧ enter_all ([ab; bc; ab] ++ [ab]) = enter_all [ab; bc; ab].
Proof.
  apply (build_duplicate_keywords [ab; bc; ab] ab). vm_compute.
  repeat constructor.
Defined.

End ScannerClaims.

Module ScannerMore.
Import Scanner ScannerFacts.

(** *** The size of the trie *)

Lemma follow_length goto s a : length (follow goto s a).2 ≤ length a.
Proof.
  revert s. induction a as [|c a IH]; intros s; [done|].
  cbn [follow]. destruct (goto !! (s, c)) as [s'|]; [|done].
  specialize (IH s'). simpl. lia.
Qed.

Lemma extend_newstate goto n s a : (extend goto n s a).1.2 = n + length a.
Proof.
  revert goto n s. induction a as [|c a IH]; intros goto n s; simpl; [lia|].
  rewrite IH. lia.
Qed.

Lemma enter_newstate t a :
  t_newstate t ≤ t_newstate (enter t a) ≤ t_newstate t + length (elems a).
Proof.
  unfold enter. pose proof (follow_length (t_goto t) 0 (elems a)) as Hf.
  destruct (follow (t_goto t) 0 (elems a)) as [state rest].
  pose proof (extend_newstate (t_goto t) (t_newstate t) state rest) as He.
  destruct (extend _ _ _ _) as [[goto n'] state']. simpl in *. lia.
Qed.

(** *** Outputs *)

Lemma output_get (out : gmap nat (gset keyword)) s :
  default [] ((elements <$> out) !! s) = elements (out !!! s).
Proof.
  rewrite lookup_fmap, lookup_total_alt.
  destruct (out !! s); [done|]. simpl. by rewrite elements_empty.
Qed.

(** *** Root completion *)

Lemma complete_root_fold (goto : gmap (nat * sym) nat) (σ : iterator) :
  let goto' := foldl (λ goto a, match goto !! (0, a) with
                                | None => <[(0, a) := 0]> goto
                                | Some _ => goto
                                end) goto σ in
  (∀ a, a ∈ σ → is_Some (goto' !! (0, a)))
  ∧ (∀ k, is_Some (goto !! k) → goto' !! k = goto !! k).
Proof.
  revert goto. induction σ as [|a σ IH]; intros goto; cbn [foldl].
  - split; [by intros a ?%elem_of_nil|done].
  - cbv zeta in IH |- *.
    set (g1 := match goto !! (0, a) with
               | None => <[(0, a) := 0]> goto
               | Some _ => goto
               end).
    destruct (IH g1) as [Hin Hkeep].
    assert (∀ k, is_Some (goto !! k) → g1 !! k = goto !! k) as H1.
    { intros k Hk. unfold g1. destruct (goto !! (0, a)) eqn:E; [done|].
      rewrite lookup_insert_ne; [done|]. intros <-. rewrite E in Hk.
      by destruct Hk. }
    assert (is_Some (g1 !! (0, a))) as Ha.
    { unfold g1. destruct (goto !! (0, a)) eqn:E; [by rewrite E|].
      by rewrite lookup_insert_eq. }
    split.
    + intros a' [->|?]%elem_of_cons; [|by apply Hin].
      by rewrite Hkeep.
    + intros k Hk. rewrite Hkeep by (by rewrite H1). by apply H1.
Qed.

Lemma elem_of_alphabet i : i < 256 → chr i ∈ alphabet.
Proof.
  intros Hi. unfold alphabet. apply list_elem_of_fmap. exists i.
  split; [done|]. apply elem_of_seq. change (Nat.shiftl 1 8) with 256. lia.
Qed.

(** *** The keys of a restored next-move table *)

Lemma true_div_inj i j : true_div i 256 = true_div j 256 → i = j.
Proof.
  unfold true_div. intros H%Qcanon.Q2Qc_eq_iff.
  unfold QArith_base.Qeq in H. cbn in H. lia.
Qed.

Lemma true_div_int s : true_div (256 * s) 256 = int s.
Proof.
  unfold true_div, int. apply Qcanon.Q2Qc_eq_iff.
  unfold QArith_base.Qeq. cbn [QArith_base.Qnum QArith_base.Qden
    QArith_base.inject_Z].
  change (Pos.of_nat 256) with 256%positive. lia.
Qed.

Lemma setstate_fold_lookup cells i :
  foldl (λ nm ins, <[(true_div ins.1 256, chr (ins.1 mod 256)) := ins.2]> nm)
        (∅ : gmap (number * sym) nat) (imap pair cells)
    !! (true_div i 256, chr (i mod 256))
  = cells !! i.
Proof.
  induction cells as [|x cells IH] using rev_ind; [done|].
  rewrite imap_app, foldl_app. cbn [imap foldl fst snd].
  rewrite Nat.add_0_r.
  destruct (decide (length cells = i)) as [<-|E].
  - by rewrite lookup_insert_eq, list_lookup_middle.
  - rewrite lookup_insert_ne
      by (intros Heq; apply (f_equal fst) in Heq; cbn [fst] in Heq;
          by apply true_div_inj in Heq).
    rewrite IH. destruct (decide (i < length cells)).
    + by rewrite lookup_app_l.
    + rewrite !lookup_ge_None_2; [done| |lia].
      rewrite length_app. simpl. lia.
Qed.

Lemma setstate_fold_None cells k :
  (∀ i, i < length cells → k ≠ (true_div i 256, chr (i mod 256))) →
  foldl (λ nm ins, <[(true_div ins.1 256, chr (ins.1 mod 256)) := ins.2]> nm)
        (∅ : gmap (number * sym) nat) (imap pair cells) !! k = None.
Proof.
  induction cells as [|x cells IH] using rev_ind; intros Hk; [done|].
  rewrite imap_app, foldl_app. cbn [imap foldl fst snd].
  rewrite Nat.add_0_r, length_app in *. simpl in Hk.
  rewrite lookup_insert_ne.
  - apply IH. intros i Hi. apply Hk. lia.
  - intros <-. apply (Hk (length cells)); [lia|done].
Qed.

End ScannerMore.

Module ScannerExtras.
Import Scanner ScannerExamples ScannerFacts ScannerMore.

#[local] Opaque alphabet.

(** X11.  Algorithm 2 makes one state per distinct prefix of the
    keywords, the root standing for the empty prefix: the states
    [0 .. newstate] can be labelled, without repetition, by exactly these
    prefixes, so that an edge [(s, c) -> s'] of [goto] links the state of
    [w] to the state of [w] followed by [c]. *)
Theorem trie_states_are_the_prefixes (K : list keyword) :
  ∃ lbl : list (list sym),
    length lbl = S (t_newstate (enter_all K))
    ∧ NoDup lbl
    ∧ lbl !! 0 = Some []
    ∧ (∀ w, w ∈ lbl ↔ w = [] ∨ ∃ k, k ∈ K ∧ w `prefix_of` elems k)
    ∧ ∀ s c s', t_goto (enter_all K) !! (s, c) = Some s' ↔
                ∃ w, lbl !! s = Some w ∧ lbl !! s' = Some (w ++ [c]).
Proof.
  destruct (enter_all_ok K) as [lbl [[H0 Hlen Hnd Hgoto _] Hkw _]].
  by exists lbl.
Qed.

(** X12.  The trie has at most one state per symbol of the keywords,
    besides the root. *)
Theorem trie_size_bound (K : list keyword) :
  t_newstate (enter_all K) ≤ sum_list ((λ k, length (elems k)) <$> K).
Proof.
  induction K as [|k K IH] using rev_ind; [done|].
  rewrite enter_all_snoc, fmap_app, sum_list_with_app.
  pose proof (enter_newstate (enter_all K) k). simpl. lia.
Qed.

(** X13.  In the scanner that [build] returns, a state outputs the
    keywords spelled by the path from the root to that state, and no
    other: the keywords that end there as proper suffixes of the path are
    not added (Algorithm 3 runs over the spent iterator). *)
Theorem build_outputs_whole_keywords_only (K : list keyword) (σ : iterator) :
  ∃ (lbl : list (list sym)) (sc : scanner),
    lbl !! 0 = Some []
    ∧ (∀ s c s', t_goto (enter_all K) !! (s, c) = Some s' ↔
                 ∃ w, lbl !! s = Some w ∧ lbl !! s' = Some (w ++ [c]))
    ∧ build K σ = (Ok sc, [])
    ∧ ∀ s k, k ∈ default [] (output sc !! s)
             ↔ k ∈ K ∧ lbl !! s = Some (elems k).
Proof.
  destruct (enter_all_ok K) as [lbl [[H0 Hlen Hnd Hgoto _] Hkw Hout]].
  exists lbl. eexists. split; [done|]. split; [done|].
  split; [apply build_run|]. intros s k. cbn [output].
  by rewrite output_get, elem_of_elements.
Qed.

(** X14.  The first [build] of a process, which finds the iterator
    [alphabet] as the class body made it, gives the root an edge for each
    of the 256 characters; a [build] that finds the iterator spent adds
    no edge to the trie of Algorithm 2; and every [build] leaves the
    iterator spent. *)
Theorem root_completed_by_first_build_only (K : list keyword) :
  (∃ tb, build_tables K alphabet = (Ok tb, [])
       ∧ ∀ i, i < 256 → is_Some (tb_goto tb !! (0, chr i)))
  ∧ (∃ tb, build_tables K [] = (Ok tb, [])
         ∧ tb_goto tb = t_goto (enter_all K))
  ∧ ∀ σ, (build K σ).2 = [].
Proof.
  split; [|split].
  - destruct (build_tables_run K alphabet) as (goto & Hroot & Hrun).
    eexists. split; [exact Hrun|]. cbn [tb_goto]. intros i Hi.
    rewrite complete_root_run in Hroot.
    assert (goto = foldl (λ goto a, match goto !! (0, a) with
                                    | None => <[(0, a) := 0]> goto
                                    | Some _ => goto
                                    end) (t_goto (enter_all K)) alphabet)
      as -> by congruence.
    apply (complete_root_fold (t_goto (enter_all K)) alphabet).
    apply elem_of_alphabet, Hi.
  - destruct (build_tables_run K []) as (goto & Hroot & Hrun).
    eexists. split; [exact Hrun|]. cbn [tb_goto].
    rewrite complete_root_run in Hroot. by injection Hroot as <-.
  - intros σ. by rewrite build_run.
Qed.

(** X15.  [setstate] files the cell [i] of the array under the state
    [i / 256], a true quotient, and the letter [chr(i % 256)].  A lookup
    with a whole state [s] finds a cell for the letter [chr(0)] only, the
    cell [256 * s]; for the other 255 letters it finds none, whatever the
    array. *)
Theorem setstate_keys_are_true_quotients (arr : array)
    (out : gmap nat (list keyword)) :
  (∀ i, nextmove (setstate (arr, out)) !! (true_div i 256, chr (i mod 256))
        = a_cells arr !! i)
  ∧ ∀ s c, c < 256 →
      nextmove (setstate (arr, out)) !! (int s, chr c)
      = if decide (c = 0) then a_cells arr !! (256 * s) else None.
Proof.
  cbn [setstate nextmove]. split; [intros i; apply setstate_fold_lookup|].
  intros s c Hc. destruct (decide (c = 0)) as [->|Hne].
  - rewrite <-true_div_int.
    assert (chr 0 = chr ((256 * s) mod 256)) as ->
      by (by rewrite Nat.mul_comm, Nat.Div0.mod_mul).
    apply setstate_fold_lookup.
  - apply setstate_fold_None. intros i _ Heq.
    pose proof (f_equal fst Heq) as H1. pose proof (f_equal snd Heq) as H2.
    cbn [fst snd] in H1, H2. rewrite <-true_div_int in H1.
    apply true_div_inj in H1.
    assert (c = i mod 256) as H3 by (unfold chr in H2; congruence).
    rewrite <-H1, (Nat.mul_comm 256 s), Nat.Div0.mod_mul in H3. done.
Qed.

End ScannerExtras.
